(** * The patience rules engine: cards, deck and board

    A shallow embedding of the rules engine (classes [Card], [Deck] and
    [Game], and the helpers [shuffled], [enumerate], [extend]) and the
    proofs of its specified properties.

    Conventions of the embedding.
    - A [Card] object is identified by its two constructor arguments; the
      deck creates exactly one object per (rank, suit) pair.
    - The mutable fields [row] and [column] of the card objects live in the
      [position] component of the state.  Every statement of the engine that
      writes [row] also writes [column] from the same source (the
      constructor, [clearUnfinished], [deal], [_swap]), so the two fields are
      [null] together: an absent key is a card whose [row] and [column] are
      [null].
    - [None] in an array cell stands for [undefined] (a hole, or a read past
      the end); [None] as a link ([nextRank], [prevRank]) stands for [null]
      or [undefined], which the engine only ever tests for truthiness.
    - Reading a property of [null] or [undefined] raises a [TypeError]; the
      mutating operations report the state they leave behind when they throw.
    - The operations are written in state-passing style.  A snapshot that
      an operation returns shares its arrays and its cards with the receiver
      ([_clone] copies references only), so one current state is threaded
      through the calls; [Returned] and [Threw] carry the state that a call
      leaves behind.
    - [Math.random] is an oracle: [deal] takes the choices of the shuffle as
      an argument. *)

From Stdlib Require Import ZArith Lia.
From stdpp Require Import gmap strings list fin_maps sorting.

Local Open Scope string_scope.
Local Open Scope nat_scope.
Local Open Scope list_scope.

(** ** JavaScript arrays and results *)

Inductive result (A : Type) : Type :=
| Ok (a : A)
| TypeError.
Arguments Ok {A} a.
Arguments TypeError {A}.

Definition rbind {A B} (r : result A) (f : A → result B) : result B :=
  match r with
  | Ok a => f a
  | TypeError => TypeError
  end.

Notation "x ←r e1 ; e2" := (rbind e1 (λ x, e2))
  (at level 100, e1 at next level, e2 at level 200, right associativity).

(** [arr[i]] for a numeric index: [undefined] out of range. *)
Definition arr_get {A} (arr : list A) (i : Z) : option A :=
  if (i <? 0)%Z then None else arr !! Z.to_nat i.

(** [arr.indexOf(x)]: the first index, [-1] when absent. *)
Fixpoint indexOf (arr : list string) (x : string) : Z :=
  match arr with
  | [] => (-1)%Z
  | y :: arr' =>
      if decide (y = x) then 0%Z
      else let i := indexOf arr' x in
           if (i <? 0)%Z then (-1)%Z else (i + 1)%Z
  end.

(** ** Card *)

Record Card : Type := mkCard { rank : string; suit : string }.

#[global] Instance Card_eq_dec : EqDecision Card.
Proof. solve_decision. Defined.

#[global] Instance Card_countable : Countable Card :=
  inj_countable' (λ c, (rank c, suit c)) (λ p, mkCard p.1 p.2)
    (λ c, match c with mkCard _ _ => eq_refl end).

(** A cell of a row or of the stock. *)
Abbreviation slot := (option Card).

Definition RANKS : list string :=
  ["2"; "3"; "4"; "5"; "6"; "7"; "8"; "9"; "10"; "J"; "Q"; "K"].

(** The keys of [Card.SUITS] with their colour (the glyph is presentation). *)
Definition SUITS : list (string * string) :=
  [("C", "black"); ("D", "red"); ("H", "red"); ("S", "black")].

Definition makeKey (rank suit : string) : string := rank +:+ suit.

Definition key (card : Card) : string := makeKey (rank card) (suit card).

Definition isBlank (card : Card) : bool := bool_decide (suit card = "B").

Definition color (card : Card) : option string :=
  if isBlank card then None else (list_to_map SUITS : gmap string string) !! suit card.

(** [slot_get arr i]: the card read at [arr[i]], [undefined] for a hole. *)
Definition slot_get (arr : list slot) (i : Z) : slot := mjoin (arr_get arr i).

(** [arr[i] = v]: in place within range; past the end the array grows and
    the cells in between are holes. *)
Definition arr_set (arr : list slot) (i : nat) (v : Card) : list slot :=
  if decide (i < length arr) then <[i := Some v]> arr
  else arr ++ replicate (i - length arr) None ++ [Some v].

(** [extend(arr1, arr2)]: every element of [arr2] is pushed onto [arr1]. *)
Definition extend (arr1 arr2 : list slot) : list slot := arr1 ++ arr2.

(** ** Deck *)

Module Deck.

Definition CARDS : list Card :=
  mjoin ((λ suit, (λ rank, mkCard rank suit) <$> RANKS) <$> SUITS.*1)
  ++ [mkCard "B1" "B"; mkCard "B2" "B"; mkCard "B3" "B"; mkCard "B4" "B"].

(** [new Map(pairs)]: a later pair overrides an earlier one. *)
Definition CARDS_BY_KEY : gmap string Card :=
  foldl (λ m card, <[key card := card]> m) ∅ CARDS.

Definition all : list slot := Some <$> CARDS.

Definition getCardsByRank (r : string) : list Card :=
  filter (λ card, rank card = r) CARDS.

Definition getBlanks : list Card :=
  filter (λ card, isBlank card = true) CARDS.

End Deck.

(** A JS string is truthy unless empty. *)
Definition truthy (s : option string) : bool :=
  match s with
  | Some s => negb (bool_decide (s = ""))
  | None => false
  end.

(** The static initialiser of [Deck] links every card of [Deck.CARDS]; any
    other card keeps the [null] of its constructor. *)
Definition prevRank (card : Card) : option Card :=
  if decide (card ∈ Deck.CARDS) then
    let rankIndex := indexOf RANKS (rank card) in
    let prev := arr_get RANKS (rankIndex - 1) in
    if truthy prev then Deck.CARDS_BY_KEY !! makeKey (default "" prev) (suit card)
    else None
  else None.

Definition nextRank (card : Card) : option Card :=
  if decide (card ∈ Deck.CARDS) then
    let rankIndex := indexOf RANKS (rank card) in
    let next := arr_get RANKS (rankIndex + 1) in
    if truthy next then Deck.CARDS_BY_KEY !! makeKey (default "" next) (suit card)
    else None
  else None.

(** ** Game *)

Record Game : Type := mkGame {
  stock : list slot;
  rows : list (list slot);
  deals : nat;
  position : gmap Card (nat * nat)
}.

Inductive outcome : Type :=
| Returned (g : Game)
| Threw (g : Game).

Definition state_of (o : outcome) : Game :=
  match o with
  | Returned g => g
  | Threw g => g
  end.

Definition set_stock (g : Game) (s : list slot) : Game :=
  mkGame s (rows g) (deals g) (position g).
Definition set_rows (g : Game) (rs : list (list slot)) : Game :=
  mkGame (stock g) rs (deals g) (position g).
Definition set_position (g : Game) (p : gmap Card (nat * nat)) : Game :=
  mkGame (stock g) (rows g) (deals g) p.

(** [new Game()] on a freshly built deck. *)
Definition initial : Game := mkGame Deck.all [[]; []; []; []] 0 ∅.

Definition row_of (g : Game) (card : Card) : option nat := fst <$> position g !! card.
Definition column_of (g : Game) (card : Card) : option nat := snd <$> position g !! card.

(** [this.rows[card.row][card.column + d]]; [this.rows[card.row]] is
    [undefined] when [card.row] is [null] or not a row index. *)
Definition neighbour (g : Game) (card : Card) (d : Z) : result slot :=
  match position g !! card with
  | None => TypeError
  | Some (r, k) =>
      match rows g !! r with
      | None => TypeError
      | Some row => Ok (slot_get row (Z.of_nat k + d))
      end
  end.

Definition cardToLeft (g : Game) (card : Card) : result slot := neighbour g card (-1).
Definition cardToRight (g : Game) (card : Card) : result slot := neighbour g card 1.

(** *** getMovableCards *)

(** One iteration of the loop over the blanks.  The set may receive the
    [null] link of a card outside the deck, hence a set of slots. *)
Definition movable_step (g : Game) (acc : result (gset slot)) (blank : Card)
  : result (gset slot) :=
  movable ←r acc;
  match position g !! blank with
  | None => Ok movable
  | Some (_, 0) => Ok (movable ∪ list_to_set (Some <$> Deck.getCardsByRank "2"))
  | Some (_, S _) =>
      toLeft ←r cardToLeft g blank;
      match toLeft with
      | Some l =>
          if negb (isBlank l) && negb (bool_decide (rank l = "K"))
          then Ok (movable ∪ {[ nextRank l ]})
          else Ok movable
      | None => Ok movable
      end
  end.

Definition getMovableCards (g : Game) : result (gset slot) :=
  foldl (movable_step g) (Ok ∅) Deck.getBlanks.

(** *** getFinalizedCards *)

(** The [while] loop, with [next = lastGoodCard.nextRank] at every test;
    [None] when the fuel runs out. *)
Fixpoint walk_fuel (fuel : nat) (g : Game) (finalized : gset Card) (lastGoodCard : Card)
  : option (result (gset Card)) :=
  match fuel with
  | 0 => None
  | S fuel' =>
      match nextRank lastGoodCard with
      | None => Some (Ok finalized)
      | Some next =>
          match cardToRight g lastGoodCard with
          | TypeError => Some TypeError
          | Ok toRight =>
              if decide (toRight = Some next)
              then walk_fuel fuel' g (finalized ∪ {[ next ]}) next
              else Some (Ok finalized)
          end
      end
  end.

(** A run climbs the ranks, so [length RANKS] iterations always suffice
    ([walk_fuel_enough] below): the default is never used. *)
Definition walk (g : Game) (finalized : gset Card) (lastGoodCard : Card)
  : result (gset Card) :=
  default TypeError (walk_fuel (length RANKS) g finalized lastGoodCard).

Definition finalized_step (g : Game) (acc : result (gset Card)) (row : list slot)
  : result (gset Card) :=
  finalized ←r acc;
  match row with
  | [] => Ok finalized
  | None :: _ => TypeError
  | Some lastGoodCard :: _ =>
      if decide (rank lastGoodCard = "2")
      then walk g (finalized ∪ {[ lastGoodCard ]}) lastGoodCard
      else Ok finalized
  end.

Definition getFinalizedCards (g : Game) : result (gset Card) :=
  foldl (finalized_step g) (Ok ∅) (rows g).

(** *** clearUnfinished *)

(** [finalizedCards.has(card)]; [undefined] is never a member. *)
Definition has (finalized : gset Card) (s : slot) : bool :=
  match s with
  | Some card => bool_decide (card ∈ finalized)
  | None => false
  end.

(** The loop over the rows: a row is cut at its first card that is not
    finalized, and the tail goes to the end of the stock. *)
Fixpoint clear_rows (finalized : gset Card) (rows : list (list slot)) (stock : list slot)
  : list (list slot) * list slot :=
  match rows with
  | [] => ([], stock)
  | row :: rest =>
      match list_find (λ s, has finalized s = false) row with
      | Some (colIndex, _) =>
          let '(rest', stock') :=
            clear_rows finalized rest (extend stock (drop colIndex row)) in
          (take colIndex row :: rest', stock')
      | None =>
          let '(rest', stock') := clear_rows finalized rest stock in
          (row :: rest', stock')
      end
  end.

(** [for (const card of self.stock) card.row = card.column = null]; the
    flag is [false] when the loop met [undefined] and threw. *)
Fixpoint null_positions (stock : list slot) (pos : gmap Card (nat * nat))
  : gmap Card (nat * nat) * bool :=
  match stock with
  | [] => (pos, true)
  | None :: _ => (pos, false)
  | Some card :: rest => null_positions rest (delete card pos)
  end.

Definition clearUnfinished (g : Game) : outcome :=
  match getFinalizedCards g with
  | TypeError => Threw g
  | Ok finalizedCards =>
      let '(rows', stock') := clear_rows finalizedCards (rows g) (stock g) in
      let '(pos', ok) := null_positions stock' (position g) in
      let self := mkGame stock' rows' (deals g) pos' in
      if ok then Returned self else Threw self
  end.

(** *** shuffled *)

(** [[a[i], a[j]] = [a[j], a[i]]] for indices within range. *)
Definition swap_cells (a : list slot) (i j : nat) : list slot :=
  <[j := slot_get a (Z.of_nat i)]> (<[i := slot_get a (Z.of_nat j)]> a).

(** The loop [for (i = length - 1; i > 0; i--)]; [rnd i] stands for the
    random number drawn at index [i], reduced to the range [0..i] of
    [Math.floor(Math.random() * (i + 1))]. *)
Fixpoint shuffle_loop (rnd : nat → nat) (i : nat) (a : list slot) : list slot :=
  match i with
  | 0 => a
  | S i' => shuffle_loop rnd i' (swap_cells a i (rnd i mod (i + 1)))
  end.

Definition shuffled (rnd : nat → nat) (array : list slot) : list slot :=
  shuffle_loop rnd (length array - 1) array.

(** *** deal *)

(** The [while (row.length < 13)] loop of one row.  The flag is [false]
    when [self.stock.shift()] gave [undefined] and the assignment threw. *)
Fixpoint deal_row (rowIndex : nat) (row stock : list slot) (pos : gmap Card (nat * nat))
  {struct stock} : list slot * list slot * gmap Card (nat * nat) * bool :=
  if decide (length row < 13) then
    match stock with
    | [] => (row, [], pos, false)
    | None :: rest => (row, rest, pos, false)
    | Some card :: rest =>
        deal_row rowIndex (row ++ [Some card]) rest (<[card := (rowIndex, length row)]> pos)
    end
  else (row, stock, pos, true).

Fixpoint deal_rows (rowIndex : nat) (rows : list (list slot)) (stock : list slot)
  (pos : gmap Card (nat * nat))
  : list (list slot) * list slot * gmap Card (nat * nat) * bool :=
  match rows with
  | [] => ([], stock, pos, true)
  | row :: rest =>
      let '(row', stock', pos', ok) := deal_row rowIndex row stock pos in
      if ok then
        let '(rest', stock'', pos'', ok') := deal_rows (S rowIndex) rest stock' pos' in
        (row' :: rest', stock'', pos'', ok')
      else (row' :: rest, stock', pos', false)
  end.

(** When the loop throws, the receiver still holds the cleared, unshuffled
    stock: the shuffled copy belongs to the clone only. *)
Definition deal (rnd : nat → nat) (g : Game) : outcome :=
  match getMovableCards g with
  | TypeError => Threw g
  | Ok movable =>
      if decide (0 < size movable) then Returned g
      else
        match clearUnfinished g with
        | Threw g' => Threw g'
        | Returned self =>
            let '(rows', stock', pos', ok) :=
              deal_rows 0 (rows self) (shuffled rnd (stock self)) (position self) in
            if ok then Returned (mkGame stock' rows' (S (deals self)) pos')
            else Threw (mkGame (stock self) rows' (deals self) pos')
        end
  end.

(** *** move *)

(** [card.row = p] for a position read from another card. *)
Definition assign (card : Card) (p : option (nat * nat)) (pos : gmap Card (nat * nat))
  : gmap Card (nat * nat) :=
  match p with
  | Some rc => <[card := rc]> pos
  | None => delete card pos
  end.

(** [this.rows[card.row][card.column] = card] *)
Definition place (g : Game) (card : Card) : outcome :=
  match position g !! card with
  | None => Threw g
  | Some (r, k) =>
      match rows g !! r with
      | None => Threw g
      | Some row => Returned (set_rows g (<[r := arr_set row k card]> (rows g)))
      end
  end.

Definition _swap (g : Game) (card dest : Card) : outcome :=
  let pc := position g !! card in
  let pd := position g !! dest in
  let g1 := set_position g (assign dest pc (assign card pd (position g))) in
  match place g1 card with
  | Threw g2 => Threw g2
  | Returned g2 => place g2 dest
  end.

(** A [row] read as a number: [null] counts as 0. *)
Definition row_num (g : Game) (card : Card) : nat := default 0 (row_of g card).

(** [sort((a, b) => a.row - b.row)], a stable sort. *)
Fixpoint insert_by_row (g : Game) (card : Card) (sorted : list Card) : list Card :=
  match sorted with
  | [] => [card]
  | x :: sorted' =>
      if decide (row_num g card ≤ row_num g x) then card :: sorted
      else x :: insert_by_row g card sorted'
  end.

Definition sort_by_row (g : Game) (cards : list Card) : list Card :=
  foldr (insert_by_row g) [] cards.

Definition move (card : Card) (g : Game) : outcome :=
  let blanks := Deck.getBlanks in
  if decide (rank card = "2") then
    let blanksFirstColumn :=
      sort_by_row g (filter (λ c, column_of g c = Some 0) blanks) in
    match blanksFirstColumn with
    | [] => Returned g
    | first :: _ =>
        if decide (column_of g card ≠ Some 0) then _swap g card first
        else
          let blanksAfterCurrent :=
            filter (λ c, row_num g card < row_num g c) blanksFirstColumn in
          match blanksAfterCurrent with
          | after :: _ => _swap g card after
          | [] => _swap g card first
          end
    end
  else
    match prevRank card with
    | None => Threw g
    | Some nextLowest =>
        match position g !! nextLowest with
        | None => Threw g
        | Some (r, k) =>
            match rows g !! r with
            | None => Threw g
            | Some row =>
                if (Z.of_nat k <? Z.of_nat (length row) - 1)%Z then
                  match slot_get row (Z.of_nat k + 1) with
                  | None => Threw g
                  | Some dest => if isBlank dest then _swap g card dest else Returned g
                  end
                else Returned g
            end
        end
    end.

(** * Specification-level definitions *)

(** ** The catalog *)

(** The place of a card's rank in [RANKS], [-1] for a blank. *)
Definition rankIndex (card : Card) : Z := indexOf RANKS (rank card).

(** Modelled on the wording of the specification: the card one rank higher
    in the same suit. *)
Definition is_successor (card next : Card) : Prop :=
  next ∈ Deck.CARDS ∧ suit next = suit card ∧
  (0 ≤ rankIndex card)%Z ∧ rankIndex next = (rankIndex card + 1)%Z.

(** The facts about the links of one card, as boolean checks that are
    evaluated on the 52 cards of the deck. *)
Definition next_link_ok (c : Card) : bool :=
  match nextRank c with
  | Some n =>
      bool_decide (n ∈ Deck.CARDS) && negb (isBlank n) && negb (isBlank c)
      && bool_decide (suit n = suit c)
      && bool_decide (rankIndex n = rankIndex c + 1)%Z
      && bool_decide (0 ≤ rankIndex c)%Z && bool_decide (rankIndex n ≤ 11)%Z
      && bool_decide (prevRank n = Some c)
      && negb (bool_decide (rank n = "2")) && negb (bool_decide (rank c = "K"))
  | None => isBlank c || bool_decide (rank c = "K")
  end.

Definition prev_link_ok (c : Card) : bool :=
  match prevRank c with
  | Some p =>
      bool_decide (p ∈ Deck.CARDS) && negb (isBlank p) && negb (isBlank c)
      && bool_decide (nextRank p = Some c)
      && negb (bool_decide (rank c = "2"))
  | None => isBlank c || bool_decide (rank c = "2")
  end.

Definition two_ok (c : Card) : bool :=
  if bool_decide (rank c = "2") then negb (isBlank c) else true.

(** ** The grid and the invariant *)

(** The card in column [k] of row [r], if there is one. *)
Definition cell (rs : list (list slot)) (r k : nat) : slot :=
  row ← rs !! r; mjoin (row !! k).

(** The invariant of the reachable boards: four rows of at most 13 cells;
    stock and rows together hold each card of the deck exactly once; a card
    has position (r, k) exactly when it lies in cell k of row r; and either
    no blank is on the board (before a deal, after a clear) or the whole
    deck is on the board. *)
Record Inv (g : Game) : Prop := {
  inv_rows : length (rows g) = 4;
  inv_len : ∀ r row, rows g !! r = Some row → length row ≤ 13;
  inv_perm : stock g ++ mjoin (rows g) ≡ₚ Deck.all;
  inv_pos : ∀ c r k, position g !! c = Some (r, k) ↔ cell (rows g) r k = Some c;
  inv_phase :
    (∀ b : Card, isBlank b = true → position g !! b = None) ∨
    (stock g = [] ∧ ∀ r row, rows g !! r = Some row → length row = 13)
}.

(** ** Finalized prefixes *)

(** The number of cells after [c] that continue its run. *)
Fixpoint chain_len (c : Card) (rest : list slot) : nat :=
  match rest with
  | Some x :: rest' =>
      if decide (nextRank c = Some x) then S (chain_len x rest') else 0
  | _ => 0
  end.

(** The length of the finalized prefix of a row. *)
Definition prefix_len (row : list slot) : nat :=
  match row with
  | Some c :: rest => if decide (rank c = "2") then S (chain_len c rest) else 0
  | _ => 0
  end.

(** The cards held by a list of cells. *)
Definition cards_of (l : list slot) : gset Card := list_to_set (omap id l).

(** The cards of the finalized prefix of a row, and of all rows. *)
Definition finalized_of_row (row : list slot) : gset Card :=
  cards_of (take (prefix_len row) row).

Definition finalized_of (rs : list (list slot)) : gset Card :=
  ⋃ (finalized_of_row <$> rs).

(** ** Clearing and dealing *)

(** The column at which [clearUnfinished] cuts a row. *)
Definition cut (F : gset Card) (row : list slot) : nat :=
  match list_find (λ s, has F s = false) row with
  | Some (colIndex, _) => colIndex
  | None => length row
  end.

(** Every blank is in the stock. *)
Definition no_blank_on_board (g : Game) : Prop :=
  ∀ b, isBlank b = true → position g !! b = None.

(** The stock and the rows that [clearUnfinished] leaves on a reachable
    board: every row keeps its finalized prefix. *)
Definition cleared_stock (g : Game) : list slot :=
  stock g ++ mjoin ((λ row, drop (prefix_len row) row) <$> rows g).
Definition cleared_rows (g : Game) : list (list slot) :=
  (λ row : list slot, take (prefix_len row) row) <$> rows g.

(** What the dealing loop maintains: the cells are the deck, and the
    positions mirror the grid. *)
Record Grid (rs : list (list slot)) (st : list slot) (pos : gmap Card (nat * nat))
  : Prop := {
  grid_perm : st ++ mjoin rs ≡ₚ Deck.all;
  grid_pos : ∀ c r k, pos !! c = Some (r, k) ↔ cell rs r k = Some c
}.

(** The cards still to be dealt to bring every row to 13. *)
Definition needed (rs : list (list slot)) : nat :=
  sum_list ((λ row, 13 - length row) <$> rs).

(** ** Movable cards and moves *)

(** The cards that one blank nominates. *)
Definition nominated (g : Game) (blank : Card) : gset slot :=
  match position g !! blank with
  | None => ∅
  | Some (_, 0) => list_to_set (Some <$> Deck.getCardsByRank "2")
  | Some (r, S k) =>
      match cell (rows g) r k with
      | Some l =>
          if negb (isBlank l) && negb (bool_decide (rank l = "K"))
          then {[ nextRank l ]} else ∅
      | None => ∅
      end
  end.

(** What a call of [move] can do on a reachable board. *)
Inductive move_effect (g : Game) (c : Card) : outcome → Prop :=
| move_noop : move_effect g c (Returned g)
| move_throws :
    rank c ≠ "2" →
    prevRank c = None ∨ (∃ p, prevRank c = Some p ∧ position g !! p = None) →
    move_effect g c (Threw g)
| move_swaps dest pc pd :
    isBlank dest = true → isBlank c = false →
    position g !! c = Some pc → position g !! dest = Some pd →
    (rank c = "2" ∧ pd.2 = 0) ∨
    (rank c ≠ "2" ∧ ∃ p r k, prevRank c = Some p ∧ position g !! p = Some (r, k) ∧ pd = (r, S k)) →
    move_effect g c (_swap g c dest).

(** ** Reachable boards *)

(** The boards that the operations can leave behind, starting from a new
    game: a throwing call leaves its state behind, too.  [move] is called
    with one of the 52 card objects of the deck; the program creates no
    other card. *)
Inductive reachable : Game → Prop :=
| reach_initial : reachable initial
| reach_deal rnd g : reachable g → reachable (state_of (deal rnd g))
| reach_move c g : c ∈ Deck.CARDS → reachable g → reachable (state_of (move c g))
| reach_clear g : reachable g → reachable (state_of (clearUnfinished g)).

(** ** Evaluation on concrete boards *)

#[global] Instance result_eq_dec {A} `{EqDecision A} : EqDecision (result A).
Proof. solve_decision. Defined.

#[global] Instance Game_eq_dec : EqDecision Game.
Proof. solve_decision. Defined.

#[global] Instance outcome_eq_dec : EqDecision outcome.
Proof. solve_decision. Defined.

(** Closed, decidable facts are settled by evaluation. *)
Ltac by_compute := apply (bool_decide_unpack _); vm_compute; exact I.

(** Random choices that exchange only cells 48 and 13 of the stock. *)
Definition sample_choices (i : nat) : nat := if decide (i = 48) then 13 else i.

(** The first deal under these choices: the 2 of clubs heads row 0 and a
    blank heads row 1. *)
Definition sample_board : Game := state_of (deal sample_choices initial).

Definition two_of_clubs : Card := mkCard "2" "C".
Definition three_of_clubs : Card := mkCard "3" "C".
Definition four_of_diamonds : Card := mkCard "4" "D".

(** Modelled on the wording of the specification: the cards that the placed
    blanks make movable. *)
Definition movable_spec (g : Game) (c : Card) : Prop :=
  ∃ blank r k,
    blank ∈ Deck.getBlanks ∧ position g !! blank = Some (r, k) ∧
    ((k = 0 ∧ c ∈ Deck.CARDS ∧ rank c = "2") ∨
     (k ≠ 0 ∧ ∃ l, cell (rows g) r (k - 1) = Some l ∧
                   isBlank l = false ∧ rank l ≠ "K" ∧ is_successor l c)).

(** What [getMovableCards] returns on the sample board. *)
Definition sample_movable : gset slot :=
  match getMovableCards sample_board with
  | Ok M => M
  | TypeError => ∅
  end.

Definition sample_finalized : gset Card :=
  match getFinalizedCards sample_board with
  | Ok F => F
  | TypeError => ∅
  end.

(** Whenever [c] is one rank above [l] in the suit of [l], the link of [l]
    is [c]: checked on all pairs of cards of the deck. *)
Definition successor_ok (l c : Card) : bool :=
  implb (bool_decide (suit c = suit l) && bool_decide (0 ≤ rankIndex l)%Z
         && bool_decide (rankIndex c = rankIndex l + 1)%Z)
        (bool_decide (nextRank l = Some c)).

(** ** Further code of the engine and of the board's handlers *)


(** The handler of the New Game button, [new Game().deal()]: [new Game()]
    has a fresh stock, fresh rows and a fresh counter, but the cards are the
    objects of the deck and keep the positions they have. *)
Definition freshGame (g : Game) : Game :=
  mkGame Deck.all [[]; []; []; []] 0 (position g).

Definition newGame (rnd : nat → nat) (g : Game) : outcome :=
  deal rnd (freshGame g).

(** The order of the sort in [move]. *)
Definition row_le (g : Game) (a b : Card) : Prop := row_num g a ≤ row_num g b.

(** The checks of the deck that are settled by evaluation. *)
Definition key_ok (c : Card) : bool :=
  bool_decide (Deck.CARDS_BY_KEY !! key c = Some c).

Definition color_ok (c : Card) : bool :=
  if isBlank c then bool_decide (color c = None)
  else bool_decide (color c = Some "black" ∧ suit c ∈ ["C"; "S"]
                    ∨ color c = Some "red" ∧ suit c ∈ ["D"; "H"]).

Definition rank_ok (r : string) : bool :=
  bool_decide (Deck.getCardsByRank r = (λ s, mkCard r s) <$> SUITS.*1).

(** The list [blanksFirstColumn] of [move]. *)
Definition blanksFirstColumn (g : Game) : list Card :=
  sort_by_row g (filter (λ c, column_of g c = Some 0) Deck.getBlanks).

(** Further cards of the sample game. *)
Definition two_of_diamonds : Card := mkCard "2" "D".
Definition first_blank : Card := mkCard "B1" "B".

(** A deal that leaves no move: under the identity shuffle the four blanks
    end row 3, behind the king of spades. *)
Definition stuck_choices (i : nat) : nat := i.
Definition stuck_board : Game := state_of (deal stuck_choices initial).

(** * Properties *)

(** ** The catalog *)

Lemma deck_check (f : Card → bool) :
  forallb f Deck.CARDS = true → ∀ c, c ∈ Deck.CARDS → f c = true.
Proof.
  intros Hall c Hc. rewrite forallb_forall in Hall.
  apply Hall. by apply list_elem_of_In.
Qed.

Lemma NoDup_CARDS : NoDup Deck.CARDS.
Proof. apply (bool_decide_unpack (NoDup Deck.CARDS)). by vm_compute. Qed.

Lemma length_CARDS : length Deck.CARDS = 52.
Proof. reflexivity. Qed.

Lemma next_link_deck c : c ∈ Deck.CARDS → next_link_ok c = true.
Proof. apply deck_check. by vm_compute. Qed.

Lemma prev_link_deck c : c ∈ Deck.CARDS → prev_link_ok c = true.
Proof. apply deck_check. by vm_compute. Qed.

Lemma two_not_blank c : c ∈ Deck.CARDS → rank c = "2" → isBlank c = false.
Proof.
  intros Hc Hr. assert (two_ok c = true) as H.
  { revert Hc. clear Hr. revert c. apply deck_check. by vm_compute. }
  unfold two_ok in H. rewrite bool_decide_eq_true_2 in H by done.
  by apply negb_true_iff.
Qed.

Lemma nextRank_in_deck c n : nextRank c = Some n → c ∈ Deck.CARDS.
Proof. unfold nextRank. by case_decide. Qed.

Lemma prevRank_in_deck c p : prevRank c = Some p → c ∈ Deck.CARDS.
Proof. unfold prevRank. by case_decide. Qed.

(** Everything the proofs use about a successor link. *)
Lemma nextRank_Some c n :
  nextRank c = Some n →
  n ∈ Deck.CARDS ∧ isBlank n = false ∧ isBlank c = false ∧ suit n = suit c ∧
  rankIndex n = (rankIndex c + 1)%Z ∧ (0 ≤ rankIndex c)%Z ∧ (rankIndex n ≤ 11)%Z ∧
  prevRank n = Some c ∧ rank n ≠ "2" ∧ rank c ≠ "K".
Proof.
  intros Hn. pose proof (next_link_deck c (nextRank_in_deck _ _ Hn)) as H.
  unfold next_link_ok in H. rewrite Hn in H.
  repeat (apply andb_true_iff in H as [H ?]).
  repeat match goal with
  | H : bool_decide _ = true |- _ => apply bool_decide_eq_true in H
  | H : negb _ = true |- _ => apply negb_true_iff in H
  | H : bool_decide _ = false |- _ => apply bool_decide_eq_false in H
  end.
  by repeat split.
Qed.

Lemma nextRank_None c :
  c ∈ Deck.CARDS → nextRank c = None → isBlank c = true ∨ rank c = "K".
Proof.
  intros Hc Hn. pose proof (next_link_deck c Hc) as H.
  unfold next_link_ok in H. rewrite Hn in H.
  apply orb_true_iff in H as [H|H]; [by left|right].
  by apply bool_decide_eq_true in H.
Qed.

Lemma prevRank_Some c p :
  prevRank c = Some p →
  p ∈ Deck.CARDS ∧ isBlank p = false ∧ isBlank c = false ∧
  nextRank p = Some c ∧ rank c ≠ "2".
Proof.
  intros Hp. pose proof (prev_link_deck c (prevRank_in_deck _ _ Hp)) as H.
  unfold prev_link_ok in H. rewrite Hp in H.
  repeat (apply andb_true_iff in H as [H ?]).
  repeat match goal with
  | H : bool_decide _ = true |- _ => apply bool_decide_eq_true in H
  | H : negb _ = true |- _ => apply negb_true_iff in H
  | H : bool_decide _ = false |- _ => apply bool_decide_eq_false in H
  end.
  by repeat split.
Qed.

Lemma prevRank_None c :
  c ∈ Deck.CARDS → prevRank c = None → isBlank c = true ∨ rank c = "2".
Proof.
  intros Hc Hn. pose proof (prev_link_deck c Hc) as H.
  unfold prev_link_ok in H. rewrite Hn in H.
  apply orb_true_iff in H as [H|H]; [by left|right].
  by apply bool_decide_eq_true in H.
Qed.

Lemma elem_of_getBlanks b :
  b ∈ Deck.getBlanks ↔ b ∈ Deck.CARDS ∧ isBlank b = true.
Proof. unfold Deck.getBlanks. rewrite list_elem_of_filter. tauto. Qed.

Lemma elem_of_getCardsByRank r c :
  c ∈ Deck.getCardsByRank r ↔ c ∈ Deck.CARDS ∧ rank c = r.
Proof. unfold Deck.getCardsByRank. rewrite list_elem_of_filter. tauto. Qed.

(** ** The loop of [getFinalizedCards] terminates within its fuel *)

Lemma walk_fuel_enough fuel g F c :
  (nextRank c = None ∨ 11 - rankIndex c < Z.of_nat fuel)%Z → 0 < fuel →
  is_Some (walk_fuel fuel g F c).
Proof.
  revert F c. induction fuel as [|fuel IH]; intros F c Hc Hpos; [lia|].
  simpl. destruct (nextRank c) as [n|] eqn:Hn; [|by eexists].
  destruct (cardToRight g c) as [toRight|]; [|by eexists].
  case_decide; [|by eexists].
  destruct Hc as [?|Hc]; [done|].
  destruct (nextRank_Some _ _ Hn) as (_ & _ & _ & _ & Hidx & Hlo & Hhi & _).
  apply IH; [right|]; lia.
Qed.

Lemma walk_fuel_mono fuel g F c r :
  walk_fuel fuel g F c = Some r → walk_fuel (S fuel) g F c = Some r.
Proof.
  revert F c. induction fuel as [|fuel IH]; intros F c; [done|].
  intros H. simpl in H. change (walk_fuel (S (S fuel)) g F c) with
    (match nextRank c with
     | None => Some (Ok F)
     | Some next =>
         match cardToRight g c with
         | TypeError => Some TypeError
         | Ok toRight =>
             if decide (toRight = Some next)
             then walk_fuel (S fuel) g (F ∪ {[ next ]}) next
             else Some (Ok F)
         end
     end).
  destruct (nextRank c); [|done].
  destruct (cardToRight g c); [|done].
  case_decide; [|done]. by apply IH.
Qed.

(** The loop equation of [walk], free of fuel. *)
Lemma walk_unfold g F c :
  walk g F c =
  match nextRank c with
  | None => Ok F
  | Some next =>
      match cardToRight g c with
      | TypeError => TypeError
      | Ok toRight =>
          if decide (toRight = Some next) then walk g (F ∪ {[ next ]}) next else Ok F
      end
  end.
Proof.
  unfold walk. change (length RANKS) with 12. 
  change (walk_fuel 12 g F c) with
    (match nextRank c with
     | None => Some (Ok F)
     | Some next =>
         match cardToRight g c with
         | TypeError => Some TypeError
         | Ok toRight =>
             if decide (toRight = Some next)
             then walk_fuel 11 g (F ∪ {[ next ]}) next
             else Some (Ok F)
         end
     end).
  destruct (nextRank c) as [n|] eqn:Hn; [|done].
  destruct (cardToRight g c); [|done].
  case_decide; [|done].
  destruct (nextRank_Some _ _ Hn) as (_ & _ & _ & _ & Hidx & Hlo & Hhi & _).
  destruct (walk_fuel_enough 11 g (F ∪ {[ n ]}) n) as [r Hr]; [right; lia|lia|].
  rewrite Hr. by rewrite (walk_fuel_mono _ _ _ _ _ Hr).
Qed.

(** The loop always ends: [walk] never falls back on its default. *)
Lemma walk_terminates g F c : is_Some (walk_fuel (length RANKS) g F c).
Proof.
  apply walk_fuel_enough; [|simpl; lia].
  destruct (nextRank c) as [n|] eqn:Hn; [right|by left].
  destruct (nextRank_Some _ _ Hn) as (_ & _ & _ & _ & _ & Hlo & _).
  simpl. lia.
Qed.

(** ** The grid *)

Lemma cell_Some rs r k c :
  cell rs r k = Some c ↔ ∃ row, rs !! r = Some row ∧ row !! k = Some (Some c).
Proof.
  unfold cell. split.
  - destruct (rs !! r) as [row|]; [|done]. simpl.
    destruct (row !! k) as [[x|]|] eqn:E; simpl; try done.
    intros [= ->]. eauto.
  - intros (row & -> & Hk). simpl. by rewrite Hk.
Qed.

Lemma elem_of_grid rs c :
  Some c ∈ mjoin rs ↔ ∃ r k, cell rs r k = Some c.
Proof.
  rewrite list_elem_of_join. split.
  - intros (row & Hc & Hrow).
    apply list_elem_of_lookup in Hc as [k Hk].
    apply list_elem_of_lookup in Hrow as [r Hr].
    exists r, k. apply cell_Some. eauto.
  - intros (r & k & H). apply cell_Some in H as (row & Hr & Hk).
    exists row. split; eapply list_elem_of_lookup_2; eauto.
Qed.

Lemma slot_get_nat (row : list slot) (k : nat) : slot_get row (Z.of_nat k) = mjoin (row !! k).
Proof.
  unfold slot_get, arr_get.
  destruct (Z.ltb_spec (Z.of_nat k) 0); [lia|]. by rewrite Nat2Z.id.
Qed.

Lemma slot_get_succ (row : list slot) (k : nat) :
  slot_get row (Z.of_nat k + 1) = mjoin (row !! S k).
Proof. rewrite <- (slot_get_nat row (S k)). f_equal. lia. Qed.

Lemma slot_get_pred (row : list slot) (k : nat) :
  slot_get row (Z.of_nat (S k) + -1) = mjoin (row !! k).
Proof. rewrite <- (slot_get_nat row k). f_equal. lia. Qed.

(** A list of 52 cells that holds every card of the deck is a permutation
    of the deck. *)
Lemma NoDup_all : NoDup Deck.all.
Proof. apply (NoDup_fmap_2 _). apply NoDup_CARDS. Qed.

Lemma cover_perm (l : list slot) :
  length l = 52 → (∀ c, c ∈ Deck.CARDS → Some c ∈ l) → l ≡ₚ Deck.all.
Proof.
  intros Hlen Hcov. symmetry. apply submseteq_length_Permutation.
  - apply NoDup_submseteq; [apply NoDup_all|].
    intros x Hx. apply list_elem_of_fmap in Hx as (c & -> & Hc). by apply Hcov.
  - unfold Deck.all. rewrite length_fmap, length_CARDS. lia.
Qed.

(** ** The invariant of the reachable states *)

Section invariant_facts.
Context (g : Game) (HI : Inv g).

Lemma inv_nodup : NoDup (stock g ++ mjoin (rows g)).
Proof. rewrite (inv_perm g HI). apply NoDup_all. Qed.

Lemma inv_defined : None ∉ stock g ++ mjoin (rows g).
Proof.
  rewrite (inv_perm g HI). unfold Deck.all.
  intros H. apply list_elem_of_fmap in H as (c & ? & _). done.
Qed.

Lemma inv_deck c : Some c ∈ stock g ++ mjoin (rows g) → c ∈ Deck.CARDS.
Proof.
  rewrite (inv_perm g HI). unfold Deck.all.
  intros H. apply list_elem_of_fmap in H as (c' & [= ->] & H). done.
Qed.

Lemma inv_cover c :
  c ∈ Deck.CARDS → Some c ∈ stock g ∨ is_Some (position g !! c).
Proof.
  intros Hc.
  assert (Some c ∈ stock g ++ mjoin (rows g)) as H.
  { rewrite (inv_perm g HI). unfold Deck.all. by apply list_elem_of_fmap_2. }
  apply elem_of_app in H as [H|H]; [by left|right].
  apply elem_of_grid in H as (r & k & H).
  apply (inv_pos g HI) in H. eauto.
Qed.

Lemma inv_stock_pos c : Some c ∈ stock g → position g !! c = None.
Proof.
  intros Hs. destruct (position g !! c) as [[r k]|] eqn:E; [|done].
  apply (inv_pos g HI) in E.
  assert (Some c ∈ mjoin (rows g)) as Hg by (apply elem_of_grid; eauto).
  pose proof inv_nodup as Hnd. apply NoDup_app in Hnd as (_ & Hdisj & _).
  by destruct (Hdisj _ Hs).
Qed.

Lemma inv_count : length (stock g) + length (mjoin (rows g)) = 52.
Proof.
  rewrite <- length_app, (inv_perm g HI). unfold Deck.all.
  by rewrite length_fmap.
Qed.

Lemma inv_row_defined r row k :
  rows g !! r = Some row → k < length row → ∃ c, row !! k = Some (Some c).
Proof.
  intros Hr Hk. destruct (lookup_lt_is_Some_2 row k Hk) as [[c|] Hc]; [eauto|].
  exfalso. apply inv_defined. apply elem_of_app. right.
  apply list_elem_of_join. exists row. split; eapply list_elem_of_lookup_2; eauto.
Qed.

Lemma inv_row_pos r row k c :
  rows g !! r = Some row → row !! k = Some (Some c) → position g !! c = Some (r, k).
Proof. intros Hr Hk. apply (inv_pos g HI). apply cell_Some. eauto. Qed.

Lemma inv_pos_row c r k :
  position g !! c = Some (r, k) →
  ∃ row, rows g !! r = Some row ∧ row !! k = Some (Some c) ∧ k < length row.
Proof.
  intros H. apply (inv_pos g HI), cell_Some in H as (row & Hr & Hk).
  exists row. split_and!; [done..|]. by eapply lookup_lt_Some.
Qed.

Lemma inv_pos_deck c p : position g !! c = Some p → c ∈ Deck.CARDS.
Proof.
  destruct p as [r k]. intros H. apply inv_deck, elem_of_app. right.
  apply elem_of_grid. exists r, k. by apply (inv_pos g HI).
Qed.

Lemma inv_pos_inj c1 c2 p :
  position g !! c1 = Some p → position g !! c2 = Some p → c1 = c2.
Proof.
  destruct p as [r k]. intros H1 H2.
  apply (inv_pos g HI) in H1, H2. congruence.
Qed.

End invariant_facts.

(** ** What [getFinalizedCards] computes *)

Lemma elem_of_cards_of l c : c ∈ cards_of l ↔ Some c ∈ l.
Proof.
  unfold cards_of. rewrite elem_of_list_to_set, list_elem_of_omap. split.
  - intros ([x|] & H & E); simpl in E; by simplify_eq.
  - intros H. by exists (Some c).
Qed.

Lemma chain_len_le c rest : chain_len c rest ≤ length rest.
Proof.
  revert c. induction rest as [|[x|] rest IH]; intros c; simpl; try lia.
  case_decide; [|lia]. specialize (IH x). lia.
Qed.

Lemma prefix_len_le row : prefix_len row ≤ length row.
Proof.
  destruct row as [|[c|] rest]; simpl; try lia.
  case_decide; [|lia]. pose proof (chain_len_le c rest). lia.
Qed.

(** Inside a run every cell holds the successor of the cell before it. *)
Lemma chain_len_lookup c rest k :
  k < chain_len c rest →
  ∃ x p, rest !! k = Some (Some x) ∧ (Some c :: rest) !! k = Some (Some p) ∧
         nextRank p = Some x.
Proof.
  revert c k. induction rest as [|[x|] rest IH]; intros c k; simpl; try lia.
  case_decide as Hn; [|lia]. intros Hk. destruct k as [|k].
  - by exists x, c.
  - destruct (IH x k) as (y & p & Hy & Hp & Hnp); [lia|].
    by exists y, p.
Qed.

Lemma prefix_len_lookup row k :
  k < prefix_len row →
  ∃ x, row !! k = Some (Some x) ∧
       match k with
       | 0 => rank x = "2"
       | S k' => ∃ p, row !! k' = Some (Some p) ∧ nextRank p = Some x
       end.
Proof.
  destruct row as [|[c|] rest]; simpl; try lia.
  case_decide as Hc; [|lia]. intros Hk. destruct k as [|k].
  - by exists c.
  - destruct (chain_len_lookup c rest k) as (x & p & Hx & Hp & Hn); [lia|].
    exists x. split; [done|]. by exists p.
Qed.

Lemma chain_len_take c rest n :
  chain_len c rest ≤ n → chain_len c (take n rest) = chain_len c rest.
Proof.
  revert c n. induction rest as [|[x|] rest IH]; intros c n; simpl.
  - by rewrite take_nil.
  - case_decide as Hn.
    + intros Hle. destruct n as [|n]; [lia|]. simpl.
      rewrite decide_True by done. f_equal. apply IH. lia.
    + intros _. destruct n; simpl; [done|]. by rewrite decide_False.
  - intros _. by destruct n.
Qed.

Lemma prefix_len_take row :
  prefix_len (take (prefix_len row) row) = prefix_len row.
Proof.
  destruct row as [|[c|] rest]; simpl; try done.
  case_decide as Hc; simpl; [|done].
  rewrite decide_True by done. f_equal. by apply chain_len_take.
Qed.

Lemma cards_of_nil : cards_of [] = ∅.
Proof. done. Qed.

Lemma cards_of_cons c l : cards_of (Some c :: l) = {[ c ]} ∪ cards_of l.
Proof. done. Qed.

Section finalized.
Context (g : Game) (HI : Inv g).

Lemma cardToRight_row r row pre c rest :
  rows g !! r = Some row → row = pre ++ Some c :: rest →
  cardToRight g c = Ok (mjoin (head rest)).
Proof.
  intros Hr Hrow. unfold cardToRight, neighbour.
  assert (row !! length pre = Some (Some c)) as Hk.
  { rewrite Hrow, lookup_app_r, Nat.sub_diag by lia. done. }
  rewrite (inv_row_pos g HI r row _ c Hr Hk), Hr, slot_get_succ.
  do 2 f_equal. rewrite Hrow, lookup_app_r by lia.
  replace (S (length pre) - length pre) with 1 by lia. by destruct rest.
Qed.

Lemma walk_chain r row rest :
  rows g !! r = Some row →
  ∀ pre c F, row = pre ++ Some c :: rest →
    walk g F c = Ok (F ∪ cards_of (take (chain_len c rest) rest)).
Proof.
  intros Hr. induction rest as [|x rest IH]; intros pre c F Hrow.
  - rewrite walk_unfold, (cardToRight_row r row pre c [] Hr Hrow).
    cbn [chain_len take]. rewrite cards_of_nil, (right_id_L ∅ (∪)).
    destruct (nextRank c); [|done]. by case_decide.
  - rewrite walk_unfold, (cardToRight_row r row pre c _ Hr Hrow).
    cbn [chain_len head mjoin option_join].
    destruct (nextRank c) as [n|] eqn:Hn.
    + destruct x as [x|].
      * destruct (decide (Some x = Some n)) as [[= ->]|Hne].
        -- rewrite decide_True by done.
           rewrite (IH (pre ++ [Some c]) n); [|by rewrite <- app_assoc].
           cbn [take]. rewrite cards_of_cons. f_equal. by rewrite (assoc_L (∪)).
        -- rewrite decide_False by congruence. cbn [take].
           by rewrite cards_of_nil, (right_id_L ∅ (∪)).
      * rewrite decide_False by done. cbn [take].
        by rewrite cards_of_nil, (right_id_L ∅ (∪)).
    + destruct x as [x|]; [rewrite decide_False by done|]; cbn [take];
        by rewrite cards_of_nil, (right_id_L ∅ (∪)).
Qed.

Lemma finalized_step_row r row F :
  rows g !! r = Some row →
  finalized_step g (Ok F) row = Ok (F ∪ finalized_of_row row).
Proof.
  intros Hr. unfold finalized_step, finalized_of_row, rbind.
  destruct row as [|[c|] rest].
  - cbn [prefix_len take]. by rewrite cards_of_nil, (right_id_L ∅ (∪)).
  - cbn [prefix_len]. case_decide as Hc.
    + rewrite (walk_chain r _ rest Hr [] c); [|done].
      cbn [take]. rewrite cards_of_cons. f_equal. by rewrite (assoc_L (∪)).
    + cbn [take]. by rewrite cards_of_nil, (right_id_L ∅ (∪)).
  - destruct (inv_row_defined g HI r _ 0 Hr) as [c Hc]; [simpl; lia|done].
Qed.

Lemma finalized_fold rs F :
  (∀ row, row ∈ rs → ∃ r, rows g !! r = Some row) →
  foldl (finalized_step g) (Ok F) rs = Ok (F ∪ finalized_of rs).
Proof.
  revert F. induction rs as [|row rs IH]; intros F Hrs; cbn [foldl].
  - unfold finalized_of. cbn. by rewrite (right_id_L ∅ (∪)).
  - destruct (Hrs row) as [r Hr]; [left|].
    rewrite (finalized_step_row r row F Hr), IH.
    + unfold finalized_of. rewrite fmap_cons. simpl.
      by rewrite (assoc_L (∪)).
    + intros row' Hrow'. apply Hrs. by right.
Qed.

(** On a reachable board [getFinalizedCards] returns the cards of the
    finalized prefixes of the rows. *)
Lemma getFinalizedCards_inv :
  getFinalizedCards g = Ok (finalized_of (rows g)).
Proof.
  unfold getFinalizedCards. rewrite finalized_fold.
  - by rewrite (left_id_L ∅ (∪)).
  - intros row Hrow. apply list_elem_of_lookup in Hrow as [r Hr]. eauto.
Qed.

Lemma elem_of_finalized_of (rs : list (list slot)) c :
  c ∈ finalized_of rs ↔
  ∃ r row k, rs !! r = Some row ∧ row !! k = Some (Some c) ∧ k < prefix_len row.
Proof.
  unfold finalized_of. rewrite elem_of_union_list. split.
  - intros (X & HX & Hc). apply list_elem_of_fmap in HX as (row & -> & Hrow).
    apply list_elem_of_lookup in Hrow as [r Hr].
    apply elem_of_cards_of, list_elem_of_lookup in Hc as [k Hk].
    apply lookup_take_Some in Hk as [Hk Hlt]. eauto 6.
  - intros (r & row & k & Hr & Hk & Hlt). exists (finalized_of_row row). split.
    + apply list_elem_of_fmap_2. by eapply list_elem_of_lookup_2.
    + apply elem_of_cards_of. eapply list_elem_of_lookup_2.
      by rewrite lookup_take_lt.
Qed.

(** A finalized card is no blank. *)
Lemma finalized_not_blank c : c ∈ finalized_of (rows g) → isBlank c = false.
Proof.
  intros (r & row & k & Hr & Hk & Hlt)%elem_of_finalized_of.
  destruct (prefix_len_lookup row k Hlt) as (x & Hx & Hkind).
  assert (x = c) as -> by congruence.
  destruct k as [|k].
  - apply two_not_blank; [|done].
    eapply inv_pos_deck; [done|]. by eapply inv_row_pos.
  - destruct Hkind as (p & _ & Hn). by apply nextRank_Some in Hn as (_ & ? & _).
Qed.

(** Within its row a card is finalized exactly up to the prefix length. *)
Lemma finalized_in_row r row k c :
  rows g !! r = Some row → row !! k = Some (Some c) →
  c ∈ finalized_of (rows g) ↔ k < prefix_len row.
Proof.
  intros Hr Hk. rewrite elem_of_finalized_of. split.
  - intros (r' & row' & k' & Hr' & Hk' & Hlt).
    pose proof (inv_row_pos g HI _ _ _ _ Hr Hk) as H1.
    pose proof (inv_row_pos g HI _ _ _ _ Hr' Hk') as H2.
    rewrite H1 in H2. simplify_eq. done.
  - eauto 6.
Qed.

End finalized.

(** ** clearUnfinished on a reachable board *)

Lemma clear_rows_eq F rs st :
  clear_rows F rs st =
  ((λ row, take (cut F row) row) <$> rs,
   st ++ mjoin ((λ row, drop (cut F row) row) <$> rs)).
Proof.
  revert st. induction rs as [|row rs IH]; intros st; simpl.
  - by rewrite (right_id_L [] (++)).
  - unfold cut at 1 3, extend. destruct (list_find _ row) as [[i x]|].
    + rewrite IH. by rewrite <- (assoc_L (++)).
    + rewrite IH. by rewrite take_ge, drop_ge by lia.
Qed.

Lemma take_drop_rows_perm (f : list slot → nat) (rs : list (list slot)) :
  mjoin ((λ row, drop (f row) row) <$> rs) ++ mjoin ((λ row, take (f row) row) <$> rs)
  ≡ₚ mjoin rs.
Proof.
  induction rs as [|row rs IH]; simpl; [done|].
  rewrite <- (take_drop (f row) row) at 5. rewrite <- IH.
  rewrite <- !(assoc_L (++)).
  rewrite (Permutation_app_swap_app (take _ _)). apply Permutation_app_head.
  apply Permutation_app_swap_app.
Qed.

Lemma elem_of_drops (f : list slot → nat) (rs : list (list slot)) (x : slot) :
  x ∈ mjoin ((λ row, drop (f row) row) <$> rs) ↔
  ∃ r row k, rs !! r = Some row ∧ row !! k = Some x ∧ f row ≤ k.
Proof.
  rewrite list_elem_of_join. split.
  - intros (l & Hx & Hl). apply list_elem_of_fmap in Hl as (row & -> & Hrow).
    apply list_elem_of_lookup in Hrow as [r Hr].
    apply list_elem_of_lookup in Hx as [k Hk]. rewrite lookup_drop in Hk.
    exists r, row, (f row + k). split_and!; [done..|lia].
  - intros (r & row & k & Hr & Hk & Hle). exists (drop (f row) row). split.
    + apply list_elem_of_lookup. exists (k - f row). rewrite lookup_drop.
      by replace (f row + (k - f row)) with k by lia.
    + apply list_elem_of_fmap. exists row. split; [done|].
      by eapply list_elem_of_lookup_2.
Qed.

Lemma null_positions_spec st pos :
  None ∉ st →
  ∃ pos', null_positions st pos = (pos', true) ∧
          ∀ c, pos' !! c = if decide (Some c ∈ st) then None else pos !! c.
Proof.
  revert pos. induction st as [|[c|] st IH]; intros pos Hst; cbn [null_positions].
  - exists pos. split; [done|]. intros c. case_decide as H; [|done].
    by apply elem_of_nil in H.
  - destruct (IH (delete c pos)) as (pos' & -> & Hpos').
    { intros H. apply Hst. by right. }
    exists pos'. split; [done|]. intros c'. rewrite Hpos'.
    destruct (decide (c = c')) as [->|Hne].
    + rewrite lookup_delete_eq.
      destruct (decide (Some c' ∈ Some c' :: st)) as [?|Hn]; [by case_decide|].
      destruct Hn. left.
    + rewrite lookup_delete_ne by done.
      destruct (decide (Some c' ∈ st)) as [Hin|Hin];
        destruct (decide (Some c' ∈ Some c :: st)) as [Hin'|Hin']; try done.
      * destruct Hin'. by right.
      * apply elem_of_cons in Hin' as [?|?]; [congruence|done].
  - destruct Hst. left.
Qed.

Section clear.
Context (g : Game) (HI : Inv g).

Lemma cut_inv r row :
  rows g !! r = Some row → cut (finalized_of (rows g)) row = prefix_len row.
Proof.
  intros Hr. pose proof (prefix_len_le row) as Hle.
  assert (∀ k, k < length row →
    ∃ c, row !! k = Some (Some c) ∧
         (has (finalized_of (rows g)) (Some c) = true ↔ k < prefix_len row)) as Hhas.
  { intros k Hk. destruct (inv_row_defined g HI r row k Hr Hk) as [c Hc].
    exists c. split; [done|]. simpl. rewrite bool_decide_eq_true.
    by apply (finalized_in_row g HI r row k c). }
  unfold cut. destruct (list_find _ row) as [[i x]|] eqn:Hfind.
  - apply list_find_Some in Hfind as (Hi & Hx & Hbefore).
    destruct (Hhas i) as (c & Hc & Hiff); [by eapply lookup_lt_Some|].
    assert (x = Some c) as -> by congruence.
    destruct (decide (i < prefix_len row)) as [Hlt|Hge].
    { apply Hiff in Hlt. congruence. }
    destruct (decide (prefix_len row < i)) as [Hlt|?]; [|lia].
    destruct (Hhas (prefix_len row)) as (c' & Hc' & Hiff').
    { apply lookup_lt_Some in Hi. lia. }
    pose proof (Hbefore _ _ Hc' Hlt) as E%not_false_iff_true.
    apply Hiff' in E. lia.
  - apply list_find_None in Hfind.
    destruct (decide (prefix_len row < length row)) as [Hlt|?]; [|lia].
    destruct (Hhas _ Hlt) as (c & Hc & Hiff).
    rewrite Forall_forall in Hfind.
    pose proof (Hfind (Some c) (list_elem_of_lookup_2 _ _ _ Hc)) as E%not_false_iff_true.
    apply Hiff in E. lia.
Qed.

End clear.

Section clear_inv.
Context (g : Game) (HI : Inv g).

Lemma clear_rows_inv :
  clear_rows (finalized_of (rows g)) (rows g) (stock g)
  = (cleared_rows g, cleared_stock g).
Proof.
  rewrite clear_rows_eq. unfold cleared_rows, cleared_stock.
  f_equal; [|f_equal; f_equal].
  - apply list_fmap_ext. intros r row Hr. by rewrite (cut_inv g HI r).
  - apply list_fmap_ext. intros r row Hr. by rewrite (cut_inv g HI r).
Qed.

Lemma clear_perm : cleared_stock g ++ mjoin (cleared_rows g) ≡ₚ Deck.all.
Proof.
  rewrite <- (inv_perm g HI). unfold cleared_rows, cleared_stock.
  rewrite <- (assoc_L (++)). apply Permutation_app_head, take_drop_rows_perm.
Qed.

Lemma clear_cell r k c :
  cell (cleared_rows g) r k = Some c ↔
  cell (rows g) r k = Some c ∧ Some c ∉ cleared_stock g.
Proof.
  rewrite !cell_Some. unfold cleared_rows. split.
  - intros (row' & Hr & Hk).
    apply list_lookup_fmap_Some in Hr as (row & -> & Hr).
    apply lookup_take_Some in Hk as [Hk Hlt]. split; [eauto|].
    unfold cleared_stock. intros [Hs|Hd]%elem_of_app.
    + pose proof (inv_stock_pos g HI c Hs) as Hnone.
      by rewrite (inv_row_pos g HI r row k c Hr Hk) in Hnone.
    + apply elem_of_drops in Hd as (r2 & row2 & k2 & Hr2 & Hk2 & Hle).
      pose proof (inv_row_pos g HI _ _ _ _ Hr Hk) as H1.
      pose proof (inv_row_pos g HI _ _ _ _ Hr2 Hk2) as H2.
      rewrite H1 in H2. simplify_eq. lia.
  - intros [(row & Hr & Hk) Hnot].
    exists (take (prefix_len row) row). split.
    + by rewrite list_lookup_fmap, Hr.
    + apply lookup_take_Some. split; [done|].
      destruct (decide (k < prefix_len row)) as [|Hge]; [done|].
      destruct Hnot. unfold cleared_stock. apply elem_of_app. right.
      apply elem_of_drops. exists r, row, k. split_and!; [done..|lia].
Qed.

Lemma clearUnfinished_inv :
  ∃ g', clearUnfinished g = Returned g' ∧
    stock g' = cleared_stock g ∧ rows g' = cleared_rows g ∧ deals g' = deals g ∧
    (∀ c, position g' !! c =
          if decide (Some c ∈ cleared_stock g) then None else position g !! c) ∧
    Inv g' ∧ no_blank_on_board g'.
Proof.
  unfold clearUnfinished.
  rewrite (getFinalizedCards_inv g HI), clear_rows_inv.
  destruct (null_positions_spec (cleared_stock g) (position g))
    as (pos' & -> & Hpos').
  { intros H. pose proof clear_perm as Hp.
    assert (None ∈ Deck.all) as Hall.
    { rewrite <- Hp. apply elem_of_app. by left. }
    apply list_elem_of_fmap in Hall as (? & ? & _). done. }
  eexists. split; [done|]. cbn [stock rows deals position].
  assert (∀ c r k, pos' !! c = Some (r, k) ↔ cell (cleared_rows g) r k = Some c)
    as Hcell.
  { intros c r k. rewrite Hpos', clear_cell, <- (inv_pos g HI).
    destruct (decide (Some c ∈ cleared_stock g)); intuition congruence. }
  assert (∀ b, isBlank b = true → pos' !! b = None) as Hblank.
  { intros b Hb. destruct (pos' !! b) as [[r k]|] eqn:E; [|done].
    apply Hcell, cell_Some in E as (row' & Hr & Hk).
    apply list_lookup_fmap_Some in Hr as (row & -> & Hr).
    apply lookup_take_Some in Hk as [Hk Hlt].
    apply (finalized_in_row g HI r row k b Hr Hk) in Hlt.
    apply (finalized_not_blank g HI) in Hlt. congruence. }
  split_and!; try done.
  constructor; cbn [stock rows deals position].
  - unfold cleared_rows. rewrite length_fmap. apply (inv_rows g HI).
  - intros r row' (row & -> & Hr)%list_lookup_fmap_Some.
    rewrite length_take. pose proof (inv_len g HI r row Hr). lia.
  - apply clear_perm.
  - done.
  - by left.
Qed.

End clear_inv.

(** ** shuffled *)

Lemma swap_cells_perm (a : list slot) i j :
  i < length a → j < length a → swap_cells a i j ≡ₚ a.
Proof.
  intros Hi Hj. unfold swap_cells. rewrite !slot_get_nat.
  destruct (lookup_lt_is_Some_2 a i Hi) as [x Hx].
  destruct (lookup_lt_is_Some_2 a j Hj) as [y Hy].
  rewrite Hx, Hy. simpl. by apply Permutation_insert_swap.
Qed.

Lemma shuffle_loop_perm rnd i (a : list slot) :
  i < length a → shuffle_loop rnd i a ≡ₚ a.
Proof.
  revert a. induction i as [|i IH]; intros a Hi; cbn [shuffle_loop]; [done|].
  set (j := rnd (S i) mod (S i + 1)).
  assert (j < length a) as Hj.
  { pose proof (Nat.mod_upper_bound (rnd (S i)) (S i + 1)). lia. }
  pose proof (swap_cells_perm a (S i) j Hi Hj) as Hswap.
  rewrite IH; [done|]. rewrite (Permutation_length Hswap). lia.
Qed.

(** Whatever the random choices, the shuffle permutes its argument. *)
Lemma shuffled_perm rnd (a : list slot) : shuffled rnd a ≡ₚ a.
Proof.
  unfold shuffled. destruct a as [|x a]; [done|].
  apply shuffle_loop_perm. simpl. lia.
Qed.

(** ** deal on a reachable board *)

Lemma Inv_Grid g : Inv g → Grid (rows g) (stock g) (position g).
Proof. intros HI. split; [apply (inv_perm g HI)|apply (inv_pos g HI)]. Qed.

Lemma cell_middle done (row : list slot) rest r k :
  cell (done ++ row :: rest) r k =
  if decide (r = length done) then mjoin (row !! k) else cell (done ++ [] :: rest) r k.
Proof.
  unfold cell. case_decide as Hr.
  - subst r. by rewrite list_lookup_middle.
  - destruct (decide (r < length done)).
    + by rewrite !lookup_app_l.
    + rewrite !lookup_app_r by lia.
      destruct (r - length done) as [|m] eqn:E; [lia|done].
Qed.

Lemma grid_push done row rest c st pos :
  Grid (done ++ row :: rest) (Some c :: st) pos →
  Grid (done ++ (row ++ [Some c]) :: rest) st (<[c := (length done, length row)]> pos).
Proof.
  intros [Hperm Hpos].
  assert (NoDup ((Some c :: st) ++ mjoin (done ++ row :: rest))) as Hnd.
  { rewrite Hperm. apply NoDup_all. }
  assert (∀ r k, cell (done ++ row :: rest) r k ≠ Some c) as Hfresh.
  { intros r k Hc. simpl in Hnd. apply NoDup_cons in Hnd as [Hnd _].
    apply Hnd, elem_of_app. right. apply elem_of_grid. eauto. }
  split.
  - rewrite <- Hperm. rewrite !join_app. simpl.
    rewrite <- !(assoc_L (++)). simpl.
    transitivity ((st ++ mjoin done ++ row) ++ Some c :: mjoin rest).
    { by rewrite <- !(assoc_L (++)). }
    rewrite <- Permutation_middle. by rewrite <- !(assoc_L (++)).
  - intros x r k. rewrite (cell_middle done (row ++ _)).
    destruct (decide (x = c)) as [->|Hne].
    + rewrite lookup_insert_eq. case_decide as Hr.
      * subst r. destruct (decide (k = length row)) as [->|Hk].
        -- rewrite lookup_app_r, Nat.sub_diag by lia. done.
        -- split; [congruence|]. intros Hc. exfalso.
           apply (Hfresh (length done) k).
           rewrite cell_middle, decide_True by done.
           destruct (decide (k < length row)).
           ++ by rewrite lookup_app_l in Hc.
           ++ rewrite lookup_app_r in Hc by lia.
              destruct (k - length row) as [|m] eqn:E; [lia|].
              by destruct m.
      * split; [congruence|]. intros Hc. exfalso. apply (Hfresh r k).
        by rewrite cell_middle, decide_False.
    + rewrite lookup_insert_ne by done. rewrite Hpos, (cell_middle done row).
      case_decide as Hr; [|done]. subst r.
      destruct (decide (k < length row)).
      * by rewrite lookup_app_l.
      * rewrite lookup_app_r by lia. rewrite (lookup_ge_None_2 row) by lia.
        destruct (k - length row) as [|[|m]]; simpl; split; congruence.
Qed.

Lemma deal_row_spec done rest st : ∀ row pos,
  Grid (done ++ row :: rest) st pos → length row ≤ 13 →
  13 - length row ≤ length st →
  ∃ row' st' pos',
    deal_row (length done) row st pos = (row', st', pos', true) ∧
    Grid (done ++ row' :: rest) st' pos' ∧
    length row' = 13 ∧ length st' + 13 = length st + length row.
Proof.
  induction st as [|s st IH]; intros row pos HG Hle Hst.
  - simpl in *. rewrite decide_False by lia.
    exists row, [], pos. split_and!; [done..|lia|simpl; lia].
  - cbn [deal_row]. case_decide as Hlt.
    + destruct s as [c|].
      * destruct (IH (row ++ [Some c]) (<[c:=(length done, length row)]> pos))
          as (row' & st' & pos' & Hrun & HG' & Hrow' & Hlen).
        { by apply grid_push. }
        { rewrite length_app. simpl. lia. }
        { rewrite length_app. simpl in *. lia. }
        exists row', st', pos'. split_and!; [done..|].
        rewrite length_app in Hlen. simpl in *. lia.
      * exfalso. destruct HG as [Hperm _].
        assert (None ∈ Deck.all) as Hall by (rewrite <- Hperm; left).
        apply list_elem_of_fmap in Hall as (? & ? & _). done.
    + exists row, (s :: st), pos. split_and!; [done..|lia|lia].
Qed.

Lemma needed_cons row rs : needed (row :: rs) = (13 - length row) + needed rs.
Proof. done. Qed.

Lemma deal_rows_spec rs : ∀ done st pos,
  Grid (done ++ rs) st pos → Forall (λ row, length row ≤ 13) rs →
  needed rs ≤ length st →
  ∃ rs' st' pos',
    deal_rows (length done) rs st pos = (rs', st', pos', true) ∧
    Grid (done ++ rs') st' pos' ∧
    length rs' = length rs ∧ Forall (λ row, length row = 13) rs'.
Proof.
  induction rs as [|row rs IH]; intros done st pos HG Hle Hst.
  - exists [], st, pos. by split_and!.
  - cbn [deal_rows]. apply Forall_cons in Hle as [Hrow Hle].
    rewrite needed_cons in Hst.
    destruct (deal_row_spec done rs st row pos)
      as (row' & st' & pos' & -> & HG' & Hrow' & Hlen); [done|done|lia|].
    destruct (IH (done ++ [row']) st' pos') as (rs' & st'' & pos'' & Hrun & HG'' & Hlen' & Hall).
    { by rewrite <- (assoc_L (++)). }
    { done. }
    { lia. }
    rewrite length_app in Hrun. simpl in Hrun.
    replace (length done + 1) with (S (length done)) in Hrun by lia.
    rewrite Hrun. exists (row' :: rs'), st'', pos''. split_and!.
    + done.
    + by rewrite <- (assoc_L (++)) in HG''.
    + simpl. lia.
    + by constructor.
Qed.

Lemma needed_total (rs : list (list slot)) :
  Forall (λ row, length row ≤ 13) rs →
  needed rs + length (mjoin rs) = 13 * length rs.
Proof.
  induction 1 as [|row rs Hrow _ IH]; [done|].
  rewrite needed_cons. change (mjoin (row :: rs)) with (row ++ mjoin rs).
  change (length (row :: rs)) with (S (length rs)). rewrite length_app. lia.
Qed.

Lemma full_rows_length (rs : list (list slot)) :
  Forall (λ row, length row = 13) rs → length (mjoin rs) = 13 * length rs.
Proof.
  induction 1 as [|row rs Hrow _ IH]; simpl; [done|].
  rewrite length_app. lia.
Qed.

(** ** What [getMovableCards] computes *)

Section movable.
Context (g : Game) (HI : Inv g).

Lemma cardToLeft_inv b r k :
  position g !! b = Some (r, S k) → cardToLeft g b = Ok (cell (rows g) r k).
Proof.
  intros Hb. unfold cardToLeft, neighbour. rewrite Hb.
  destruct (inv_pos_row g HI b r (S k) Hb) as (row & Hr & _).
  rewrite Hr, slot_get_pred. unfold cell. by rewrite Hr.
Qed.

Lemma movable_step_inv M b :
  movable_step g (Ok M) b = Ok (M ∪ nominated g b).
Proof.
  unfold movable_step, nominated, rbind.
  destruct (position g !! b) as [[r [|k]]|] eqn:Hb.
  - done.
  - rewrite (cardToLeft_inv b r k Hb).
    destruct (cell (rows g) r k) as [l|]; [|by rewrite (right_id_L ∅ (∪))].
    destruct (negb (isBlank l) && negb (bool_decide (rank l = "K"))); [done|].
    by rewrite (right_id_L ∅ (∪)).
  - by rewrite (right_id_L ∅ (∪)).
Qed.

Lemma movable_fold bs M :
  foldl (movable_step g) (Ok M) bs = Ok (M ∪ ⋃ (nominated g <$> bs)).
Proof.
  revert M. induction bs as [|b bs IH]; intros M; cbn [foldl].
  - simpl. by rewrite (right_id_L ∅ (∪)).
  - rewrite movable_step_inv, IH, fmap_cons. simpl.
    by rewrite (assoc_L (∪)).
Qed.

(** On a reachable board [getMovableCards] returns the union of what the
    four blanks nominate. *)
Lemma getMovableCards_inv :
  getMovableCards g = Ok (⋃ (nominated g <$> Deck.getBlanks)).
Proof.
  unfold getMovableCards. by rewrite movable_fold, (left_id_L ∅ (∪)).
Qed.

Lemma getMovableCards_no_blank :
  no_blank_on_board g → getMovableCards g = Ok ∅.
Proof.
  intros Hnb. rewrite getMovableCards_inv. f_equal.
  apply leibniz_equiv. apply empty_union_list.
  apply Forall_fmap, Forall_forall. intros b [_ Hb]%elem_of_getBlanks. simpl.
  unfold nominated. by rewrite (Hnb b Hb).
Qed.

End movable.

(** ** deal on a reachable board *)

Lemma deal_blocked rnd g M :
  getMovableCards g = Ok M → 0 < size M → deal rnd g = Returned g.
Proof. intros HM Hsize. unfold deal. rewrite HM. by rewrite decide_True. Qed.

Lemma deal_unblocked rnd g M :
  Inv g → getMovableCards g = Ok M → size M = 0 →
  ∃ g', deal rnd g = Returned g' ∧ Inv g' ∧ stock g' = [] ∧
        (∀ r row, rows g' !! r = Some row → length row = 13) ∧
        length (rows g') = 4 ∧ deals g' = S (deals g).
Proof.
  intros HI HM Hsize. unfold deal. rewrite HM, decide_False by lia.
  destruct (clearUnfinished_inv g HI) as (g1 & -> & _ & _ & Hdeals & _ & HI1 & _).
  assert (Forall (λ row : list slot, length row ≤ 13) (rows g1)) as Hle.
  { apply Forall_forall. intros row [r Hr]%list_elem_of_lookup.
    by apply (inv_len g1 HI1 r). }
  destruct (deal_rows_spec (rows g1) [] (shuffled rnd (stock g1)) (position g1))
    as (rs' & st' & pos' & Hrun & HG & Hlen & Hfull).
  { split; [|apply (inv_pos g1 HI1)].
    simpl. rewrite shuffled_perm. apply (inv_perm g1 HI1). }
  { done. }
  { rewrite (Permutation_length (shuffled_perm rnd (stock g1))).
    pose proof (needed_total _ Hle). pose proof (inv_count g1 HI1).
    rewrite (inv_rows g1 HI1) in *. lia. }
  simpl in Hrun. rewrite Hrun. simpl in HG.
  assert (st' = []) as ->.
  { apply nil_length_inv. pose proof (Permutation_length (grid_perm _ _ _ HG)) as Hp.
    rewrite length_app, (full_rows_length _ Hfull), Hlen, (inv_rows g1 HI1) in Hp.
    unfold Deck.all in Hp. rewrite length_fmap, length_CARDS in Hp. lia. }
  assert (∀ r row, rs' !! r = Some row → length row = 13) as Hrows.
  { intros r row Hr. rewrite Forall_forall in Hfull.
    apply Hfull. by eapply list_elem_of_lookup_2. }
  eexists. split; [done|]. cbn [stock rows deals position].
  split_and!; try done; [|by rewrite Hlen, (inv_rows g1 HI1)|by rewrite Hdeals].
  constructor; cbn [stock rows deals position].
  - by rewrite Hlen, (inv_rows g1 HI1).
  - intros r row Hr. rewrite (Hrows r row Hr). lia.
  - apply (grid_perm _ _ _ HG).
  - apply (grid_pos _ _ _ HG).
  - right. done.
Qed.

Lemma deal_inv rnd g : Inv g → ∃ g', deal rnd g = Returned g' ∧ Inv g'.
Proof.
  intros HI. pose proof (getMovableCards_inv g HI) as HM.
  destruct (decide (0 < size (⋃ (nominated g <$> Deck.getBlanks)))) as [Hs|Hs].
  - exists g. split; [|done]. by eapply deal_blocked.
  - destruct (deal_unblocked rnd g _ HI HM) as (g' & ? & ? & _); [lia|]. eauto.
Qed.

(** ** _swap and move on a reachable board *)

Lemma cell_insert (rs : list (list slot)) r row k v r' k' :
  rs !! r = Some row → k < length row →
  cell (<[r := arr_set row k v]> rs) r' k' =
  if decide (r' = r ∧ k' = k) then Some v else cell rs r' k'.
Proof.
  intros Hr Hk. unfold cell, arr_set. rewrite decide_True by done.
  pose proof (lookup_lt_Some _ _ _ Hr) as Hlt.
  destruct (decide (r' = r)) as [->|Hne].
  - rewrite list_lookup_insert_eq by done. simpl. rewrite Hr. simpl.
    destruct (decide (k' = k)) as [->|Hnk].
    + rewrite decide_True by done. by rewrite list_lookup_insert_eq.
    + rewrite decide_False by tauto. by rewrite list_lookup_insert_ne.
  - rewrite decide_False by tauto. by rewrite list_lookup_insert_ne.
Qed.

Lemma lengths_insert (rs : list (list slot)) r row k v :
  rs !! r = Some row → k < length row →
  length <$> <[r := arr_set row k v]> rs = length <$> rs.
Proof.
  intros Hr Hk. unfold arr_set. rewrite decide_True by done.
  rewrite list_fmap_insert, length_insert.
  apply list_insert_id. by rewrite list_lookup_fmap, Hr.
Qed.

Lemma lookup_lengths (rs rs' : list (list slot)) r row' :
  length <$> rs' = length <$> rs → rs' !! r = Some row' →
  ∃ row, rs !! r = Some row ∧ length row = length row'.
Proof.
  intros Hl Hr. assert ((length <$> rs) !! r = Some (length row')) as H.
  { by rewrite <- Hl, list_lookup_fmap, Hr. }
  apply list_lookup_fmap_Some in H as (row & ? & ?). eauto.
Qed.

Lemma place_eq g card r k row :
  position g !! card = Some (r, k) → rows g !! r = Some row →
  place g card = Returned (set_rows g (<[r := arr_set row k card]> (rows g))).
Proof. intros Hp Hr. unfold place. by rewrite Hp, Hr. Qed.

Section swap.
Context (g : Game) (HI : Inv g).
Context (card dest : Card) (pc pd : nat * nat).
Context (Hc : position g !! card = Some pc) (Hd : position g !! dest = Some pd).
Context (Hne : card ≠ dest).

Lemma swap_inv :
  ∃ g', _swap g card dest = Returned g' ∧
    position g' = <[dest := pc]> (<[card := pd]> (position g)) ∧
    stock g' = stock g ∧ deals g' = deals g ∧
    length <$> rows g' = length <$> rows g ∧
    (∀ r k, cell (rows g') r k =
            if decide ((r, k) = pc) then Some dest
            else if decide ((r, k) = pd) then Some card
            else cell (rows g) r k).
Proof.
  destruct pc as [r2 k2], pd as [r1 k1].
  destruct (inv_pos_row g HI _ _ _ Hc) as (row2 & Hr2 & _ & Hk2).
  destruct (inv_pos_row g HI _ _ _ Hd) as (row1 & Hr1 & _ & Hk1).
  unfold _swap. rewrite Hc, Hd. cbn [assign].
  rewrite (place_eq _ card r1 k1 row1); cbn [position set_position rows];
    [|by rewrite lookup_insert_ne, lookup_insert_eq|done].
  destruct (lookup_lt_is_Some_2 (<[r1:=arr_set row1 k1 card]> (rows g)) r2)
    as [row2' Hr2'].
  { rewrite length_insert. by eapply lookup_lt_Some. }
  rewrite (place_eq _ dest r2 k2 row2'); cbn [position set_position set_rows rows];
    [|by rewrite lookup_insert_eq|done].
  pose proof (lengths_insert _ _ _ _ card Hr1 Hk1) as Hl1.
  destruct (lookup_lengths _ _ _ _ Hl1 Hr2') as (row2'' & Hr2'' & Hlen2).
  assert (row2'' = row2) as -> by congruence.
  eexists. split; [done|].
  unfold set_rows, set_position. cbn [position stock deals rows].
  split_and!; try done.
  - rewrite <- Hl1. apply lengths_insert; [done|lia].
  - intros r k. rewrite (cell_insert _ _ _ _ _ _ _ Hr2') by lia.
    rewrite (cell_insert _ _ _ _ _ _ _ Hr1 Hk1).
    repeat case_decide; destruct_and?; simplify_eq; try done; exfalso; intuition congruence.
Qed.

Lemma swap_Inv g' : _swap g card dest = Returned g' → Inv g'.
Proof.
  destruct swap_inv as (g'' & -> & Hpos & Hstock & _ & Hlen & Hcell).
  intros [= <-].
  assert (∀ c r k, position g'' !! c = Some (r, k) ↔ cell (rows g'') r k = Some c)
    as Hgrid.
  { intros c r k. rewrite Hpos, Hcell.
    assert (pc ≠ pd) as Hpp.
    { intros ->. destruct Hne. by eapply (inv_pos_inj g HI). }
    destruct (decide (c = dest)) as [->|Hnd];
      [|destruct (decide (c = card)) as [->|Hnc]].
    - rewrite lookup_insert_eq. destruct (decide ((r, k) = pc)) as [E1|H1].
      + split; congruence.
      + destruct (decide ((r, k) = pd)) as [E2|H2]; [split; congruence|].
        split; [congruence|]. intros Hx%(inv_pos g HI). congruence.
    - rewrite lookup_insert_ne, lookup_insert_eq by done.
      destruct (decide ((r, k) = pc)) as [E1|H1]; [split; congruence|].
      destruct (decide ((r, k) = pd)) as [E2|H2]; [split; congruence|].
      split; [congruence|]. intros Hx%(inv_pos g HI). congruence.
    - rewrite !lookup_insert_ne by done.
      destruct (decide ((r, k) = pc)) as [E1|H1].
      + split; [|congruence]. intros Hx. rewrite E1 in Hx.
        destruct Hnc. by eapply (inv_pos_inj g HI).
      + destruct (decide ((r, k) = pd)) as [E2|H2]; [|apply (inv_pos g HI)].
        split; [|congruence]. intros Hx. rewrite E2 in Hx.
        destruct Hnd. by eapply (inv_pos_inj g HI). }
  constructor.
  - rewrite <- (length_fmap length), Hlen, length_fmap. apply (inv_rows g HI).
  - intros r row' Hr. destruct (lookup_lengths _ _ _ _ Hlen Hr) as (row & Hr0 & <-).
    by apply (inv_len g HI r).
  - apply cover_perm.
    + rewrite length_app, length_join, Hlen, <- length_join, Hstock.
      apply (inv_count g HI).
    + intros c Hcd. apply elem_of_app.
      destruct (inv_cover g HI c Hcd) as [?|[[r k] Hp]]; [left; congruence|right].
      apply elem_of_grid.
      destruct (decide (c = dest)) as [->|Hnd].
      { exists pc.1, pc.2. apply Hgrid. rewrite Hpos, lookup_insert_eq. by destruct pc. }
      destruct (decide (c = card)) as [->|Hnc].
      { exists pd.1, pd.2. apply Hgrid.
        rewrite Hpos, lookup_insert_ne, lookup_insert_eq by done. by destruct pd. }
      exists r, k. apply Hgrid. by rewrite Hpos, !lookup_insert_ne.
  - done.
  - destruct (inv_phase g HI) as [Hnb|[Hs Hfull]].
    + left. intros b Hb. rewrite Hpos.
      rewrite !lookup_insert_ne; [by apply Hnb|..]; intros <-;
        rewrite (Hnb _ Hb) in *; done.
    + right. split; [congruence|]. intros r row' Hr.
      destruct (lookup_lengths _ _ _ _ Hlen Hr) as (row & Hr0 & <-).
      by apply (Hfull r).
Qed.

End swap.

(** The sort keeps the cards it is given. *)
Lemma insert_by_row_perm g c l : insert_by_row g c l ≡ₚ c :: l.
Proof.
  induction l as [|x l IH]; simpl; [done|].
  case_decide; [done|]. rewrite IH. apply Permutation_swap.
Qed.

Lemma sort_by_row_perm g l : sort_by_row g l ≡ₚ l.
Proof.
  unfold sort_by_row. induction l as [|x l IH]; simpl; [done|].
  by rewrite insert_by_row_perm, IH.
Qed.

Lemma blank_first_column g b :
  b ∈ sort_by_row g (filter (λ c, column_of g c = Some 0) Deck.getBlanks) →
  isBlank b = true ∧ ∃ r, position g !! b = Some (r, 0).
Proof.
  rewrite sort_by_row_perm. intros [Hcol Hb]%list_elem_of_filter.
  apply elem_of_getBlanks in Hb as [_ Hb]. split; [done|].
  unfold column_of in Hcol. destruct (position g !! b) as [[r k]|]; [|done].
  simpl in Hcol. exists r. congruence.
Qed.

Section move.
Context (g : Game) (HI : Inv g).

Lemma blank_on_board_full b p c :
  isBlank b = true → position g !! b = Some p → c ∈ Deck.CARDS →
  is_Some (position g !! c).
Proof.
  intros Hb Hp Hc. destruct (inv_phase g HI) as [Hnb|[Hs _]].
  - rewrite (Hnb b Hb) in Hp. done.
  - destruct (inv_cover g HI c Hc) as [Hin|?]; [|done].
    rewrite Hs in Hin. by apply elem_of_nil in Hin.
Qed.

Lemma move_effect_inv c : c ∈ Deck.CARDS → move_effect g c (move c g).
Proof.
  intros Hc. unfold move. case_decide as Hrank.
  - assert (isBlank c = false) as Hnb by by apply two_not_blank.
    destruct (sort_by_row g _) as [|first tl] eqn:Hsort; [constructor|].
    assert (∀ b, b ∈ first :: tl → move_effect g c (_swap g c b)) as Hswap.
    { intros b Hb. rewrite <- Hsort in Hb.
      apply blank_first_column in Hb as [Hb [r Hr]].
      destruct (blank_on_board_full b _ c Hb Hr Hc) as [pc Hpc].
      eapply move_swaps; eauto. }
    case_decide.
    + apply Hswap. left.
    + destruct (filter _ (first :: tl)) as [|after tl'] eqn:Hafter.
      * apply Hswap. left.
      * apply Hswap.
        assert (after ∈ filter (λ c0, row_num g c < row_num g c0) (first :: tl)) as Hin.
        { rewrite Hafter. left. }
        by apply list_elem_of_filter in Hin as [_ ?].
  - destruct (prevRank c) as [p|] eqn:Hp; [|apply move_throws; auto].
    destruct (position g !! p) as [[r k]|] eqn:Hpos; [|apply move_throws; eauto].
    destruct (inv_pos_row g HI p r k Hpos) as (row & Hr & Hk & Hlt).
    rewrite Hr. destruct (Z.ltb_spec (Z.of_nat k) (Z.of_nat (length row) - 1));
      [|constructor].
    rewrite slot_get_succ.
    destruct (inv_row_defined g HI r row (S k) Hr) as [dest Hdest]; [lia|].
    rewrite Hdest. simpl. destruct (isBlank dest) eqn:Hb; [|constructor].
    pose proof (inv_row_pos g HI r row (S k) dest Hr Hdest) as Hpd.
    destruct (blank_on_board_full dest _ c Hb Hpd Hc) as [pc Hpc].
    apply prevRank_Some in Hp as Hfacts. destruct Hfacts as (_ & _ & Hcb & _).
    eapply move_swaps; eauto. right. split; [done|]. eauto 6.
Qed.

(** [move] keeps the invariant, whether it returns or throws. *)
Lemma move_Inv c : c ∈ Deck.CARDS → Inv (state_of (move c g)).
Proof.
  intros Hc. destruct (move_effect_inv c Hc) as [| |dest pc pd Hb Hcb Hpc Hpd _];
    [done..|].
  assert (c ≠ dest) as Hne by (intros ->; congruence).
  destruct (swap_inv g HI c dest pc pd Hpc Hpd Hne) as (g' & Hswap & _).
  rewrite Hswap. simpl. exact (swap_Inv g HI c dest pc pd Hpc Hpd Hne g' Hswap).
Qed.

End move.

(** ** Reachable boards *)

Lemma Inv_initial : Inv initial.
Proof.
  constructor; unfold initial; cbn [stock rows position].
  - done.
  - intros [|[|[|[|r]]]] row [= <-]; simpl; lia.
  - change (mjoin [[]; []; []; []]) with (@nil slot).
    by rewrite (right_id_L [] (++)).
  - intros c r k. rewrite lookup_empty. split; [done|].
    intros (row & Hr & Hk)%cell_Some.
    destruct r as [|[|[|[|r]]]]; simplify_eq/=; done.
  - left. intros b _. apply lookup_empty.
Qed.

Lemma reachable_Inv g : reachable g → Inv g.
Proof.
  induction 1 as [|rnd g _ IH|c g Hc _ IH|g _ IH].
  - apply Inv_initial.
  - by destruct (deal_inv rnd g IH) as (g' & -> & ?).
  - by apply move_Inv.
  - by destruct (clearUnfinished_inv g IH) as (g' & -> & _ & _ & _ & _ & ? & _).
Qed.

(** ** A sample game *)

Lemma reachable_sample : reachable sample_board.
Proof. apply reach_deal, reach_initial. Qed.

(** ** The claims *)

(** C1 — card-count conservation: on every board reachable from the initial
    one through deal, move and clearUnfinished there are four rows, and the
    length of the stock plus the sum of the row lengths is 52. *)
Theorem card_count_conserved g :
  reachable g →
  length (rows g) = 4 ∧ length (stock g) + sum_list (length <$> rows g) = 52.
Proof.
  intros HI%reachable_Inv. split; [apply (inv_rows g HI)|].
  rewrite <- length_join. apply (inv_count g HI).
Qed.

Lemma card_count_conserved_witness :
  length (rows sample_board) = 4 ∧
  length (stock sample_board) + sum_list (length <$> rows sample_board) = 52.
Proof. apply (card_count_conserved sample_board). apply reach_deal, reach_initial. Defined.

(** C2 — deal blocking: on any board, when getMovableCards returns a
    non-empty set, deal returns the very same board: stock, rows, deal
    counter and card positions are untouched. *)
Theorem deal_blocked_unchanged rnd g M :
  getMovableCards g = Ok M → M ≠ ∅ → deal rnd g = Returned g.
Proof.
  intros HM Hne. apply (deal_blocked rnd g M HM).
  destruct (decide (size M = 0)) as [Hz|]; [|lia].
  by apply size_empty_iff, leibniz_equiv in Hz.
Qed.

Lemma deal_blocked_unchanged_witness :
  getMovableCards sample_board = Ok sample_movable ∧ sample_movable ≠ ∅ ∧
  deal sample_choices sample_board = Returned sample_board.
Proof.
  assert (getMovableCards sample_board = Ok sample_movable) as HM by by_compute.
  assert (sample_movable ≠ ∅) as Hne by by_compute.
  split_and!; [exact HM|exact Hne|].
  exact (deal_blocked_unchanged sample_choices sample_board sample_movable HM Hne).
Defined.

(** C3, as stated, fails: on the sample board the 2 of clubs is finalized
    at the head of row 0, and moving it takes it to the blank that heads
    row 1. *)
Lemma finalized_two_displaced :
  reachable sample_board ∧ two_of_clubs ∈ Deck.CARDS ∧
  getFinalizedCards sample_board = Ok sample_finalized ∧
  two_of_clubs ∈ sample_finalized ∧
  position sample_board !! two_of_clubs = Some (0, 0) ∧
  position (state_of (move two_of_clubs sample_board)) !! two_of_clubs = Some (1, 0) ∧
  position (state_of (move two_of_clubs sample_board)) !! two_of_clubs
  ≠ position sample_board !! two_of_clubs.
Proof.
  split_and!; [apply reachable_sample|by_compute..].
Qed.

(** C3, amended — on every reachable board, move(c) leaves the position of
    every finalized card unchanged, except for c itself when c is a rank-2
    card: a finalized 2 at the head of a row can still be moved to a blank
    of the first column. *)
Theorem finalized_not_displaced g c f F :
  reachable g → c ∈ Deck.CARDS → getFinalizedCards g = Ok F → f ∈ F →
  (f = c → rank c ≠ "2") →
  position (state_of (move c g)) !! f = position g !! f.
Proof.
  intros HI%reachable_Inv Hc HF Hf Hfc.
  rewrite (getFinalizedCards_inv g HI) in HF. injection HF as <-.
  pose proof (finalized_not_blank g HI f Hf) as Hfb.
  destruct (move_effect_inv g HI c Hc) as [| |dest pc pd Hb Hcb Hpc Hpd Hkind];
    [done..|].
  assert (c ≠ dest) as Hne by (intros ->; congruence).
  destruct (swap_inv g HI c dest pc pd Hpc Hpd Hne) as (g' & -> & Hpos & _).
  simpl. rewrite Hpos, lookup_insert_ne by (intros ->; congruence).
  destruct (decide (f = c)) as [->|Hnc]; [|by rewrite lookup_insert_ne].
  exfalso. specialize (Hfc eq_refl).
  destruct Hkind as [[? _]|(_ & p & r & k & Hp & Hpp & ->)]; [done|].
  apply elem_of_finalized_of in Hf as (r' & row & k' & Hr & Hk & Hlt).
  destruct (prefix_len_lookup row k' Hlt) as (x & Hx & Hprev).
  assert (x = c) as -> by congruence.
  destruct k' as [|k'']; [done|].
  destruct Hprev as (p' & Hp' & Hn).
  apply nextRank_Some in Hn as (_ & _ & _ & _ & _ & _ & _ & Hpc' & _).
  assert (p' = p) as -> by congruence.
  pose proof (inv_row_pos g HI r' row k'' p Hr Hp') as Hpp'.
  rewrite Hpp in Hpp'. injection Hpp' as -> ->.
  pose proof (inv_row_pos g HI r' row (S k'') c Hr Hk) as Hpc''.
  destruct Hne. exact (inv_pos_inj g HI c dest _ Hpc'' Hpd).
Qed.

(** On the sample board the 4 of diamonds is movable: it goes to the blank
    on the right of the 3 of diamonds, and the 2 of clubs stays. *)
Lemma finalized_not_displaced_witness :
  position (state_of (move four_of_diamonds sample_board)) !! two_of_clubs
  = position sample_board !! two_of_clubs.
Proof.
  apply (finalized_not_displaced sample_board four_of_diamonds two_of_clubs
           sample_finalized).
  - apply reach_deal, reach_initial.
  - by_compute.
  - by_compute.
  - by_compute.
  - by_compute.
Defined.

(** A move of a card other than a 2 whose predecessor has no position
    throws on any board, before anything is written. *)
Lemma move_undealt_predecessor g c p :
  rank c ≠ "2" → prevRank c = Some p → position g !! p = None →
  move c g = Threw g.
Proof.
  intros Hrank Hp Hpos. unfold move.
  rewrite decide_False by done. by rewrite Hp, Hpos.
Qed.

(** So does a move of a blank: a blank has no predecessor link. *)
Lemma move_blank_throws g b : b ∈ Deck.getBlanks → move b g = Threw g.
Proof.
  intros [Hb Hblank]%elem_of_getBlanks. unfold move.
  destruct (decide (rank b = "2")) as [H2|_].
  - pose proof (two_not_blank b Hb H2). congruence.
  - destruct (prevRank b) as [p|] eqn:Hp; [|done].
    apply prevRank_Some in Hp as (_ & _ & ? & _). congruence.
Qed.

(** On a reachable board a throwing move leaves the board as it was. *)
Lemma move_throw_unchanged g c g' :
  reachable g → c ∈ Deck.CARDS → move c g = Threw g' → g' = g.
Proof.
  intros HI%reachable_Inv Hc Hmove.
  destruct (move_effect_inv g HI c Hc) as [| |dest pc pd Hb Hcb Hpc Hpd _].
  - done.
  - congruence.
  - assert (c ≠ dest) as Hne by (intros ->; congruence).
    destruct (swap_inv g HI c dest pc pd Hpc Hpd Hne) as (g'' & Hswap & _).
    congruence.
Qed.

(** C4 — the code does not absorb this illegal move: on the initial board
    the predecessor of the 3 of clubs is still in the stock, and move
    raises a TypeError (the board itself is left as it was). *)
Theorem move_undealt_predecessor_throws :
  prevRank three_of_clubs = Some two_of_clubs ∧
  position initial !! two_of_clubs = None ∧
  move three_of_clubs initial = Threw initial.
Proof. split_and!; by_compute. Qed.

(** C5 — position-grid bijection: on every reachable board a card with
    position (r, k) is the card in cell k of row r, no two distinct cards
    have the same position, and every card of the stock has no position. *)
Theorem position_grid_bijection g :
  reachable g →
  (∀ c r k, position g !! c = Some (r, k) →
            ∃ row, rows g !! r = Some row ∧ row !! k = Some (Some c)) ∧
  (∀ c1 c2 p, position g !! c1 = Some p → position g !! c2 = Some p → c1 = c2) ∧
  (∀ c, Some c ∈ stock g → position g !! c = None).
Proof.
  intros HI%reachable_Inv. split_and!.
  - intros c r k H. destruct (inv_pos_row g HI c r k H) as (row & ? & ? & _). eauto.
  - apply (inv_pos_inj g HI).
  - apply (inv_stock_pos g HI).
Qed.

Lemma position_grid_bijection_witness :
  (∀ c r k, position sample_board !! c = Some (r, k) →
            ∃ row, rows sample_board !! r = Some row ∧ row !! k = Some (Some c)) ∧
  (∀ c1 c2 p, position sample_board !! c1 = Some p →
              position sample_board !! c2 = Some p → c1 = c2) ∧
  (∀ c, Some c ∈ stock sample_board → position sample_board !! c = None).
Proof. apply (position_grid_bijection sample_board). apply reach_deal, reach_initial. Defined.

Lemma prefix_len_drop_take row :
  drop (prefix_len (take (prefix_len row) row)) (take (prefix_len row) row) = [].
Proof.
  rewrite prefix_len_take. apply drop_ge. rewrite length_take. lia.
Qed.

Lemma cleared_rows_idem g g1 :
  rows g1 = cleared_rows g → cleared_rows g1 = rows g1.
Proof.
  intros H. unfold cleared_rows at 1. rewrite H. unfold cleared_rows.
  rewrite <- list_fmap_compose. apply list_fmap_ext. intros r row _. simpl.
  by rewrite prefix_len_take, take_take, Nat.min_id.
Qed.

Lemma cleared_stock_idem g g1 :
  rows g1 = cleared_rows g → cleared_stock g1 = stock g1.
Proof.
  intros H. unfold cleared_stock. rewrite H. unfold cleared_rows.
  rewrite <- list_fmap_compose.
  rewrite <- (right_id_L [] (++) (stock g1)) at 2. f_equal.
  induction (rows g) as [|row rs IH]; [done|].
  rewrite fmap_cons. change (mjoin (?x :: ?l)) with (x ++ mjoin l).
  rewrite IH, (right_id_L [] (++)). apply prefix_len_drop_take.
Qed.

(** C6 — idempotence of clearUnfinished: on every reachable board a second
    clearUnfinished returns the board that the first one returned, with
    the same rows, stock, card positions and deal counter. *)
Theorem clearUnfinished_idempotent g :
  reachable g →
  ∃ g1, clearUnfinished g = Returned g1 ∧ clearUnfinished g1 = Returned g1.
Proof.
  intros HI%reachable_Inv.
  destruct (clearUnfinished_inv g HI) as (g1 & Hrun & Hs1 & Hr1 & _ & Hp1 & HI1 & _).
  exists g1. split; [done|].
  destruct (clearUnfinished_inv g1 HI1) as (g2 & -> & Hs2 & Hr2 & Hd2 & Hp2 & _).
  f_equal.
  rewrite (cleared_rows_idem g g1 Hr1) in Hr2.
  rewrite (cleared_stock_idem g g1 Hr1) in Hs2, Hp2.
  assert (position g2 = position g1) as Hpos.
  { apply map_eq. intros c. rewrite Hp2. case_decide as Hin; [|done].
    rewrite Hp1, <- Hs1. by rewrite decide_True. }
  destruct g1, g2; simpl in *; congruence.
Qed.

Lemma clearUnfinished_idempotent_witness :
  ∃ g1, clearUnfinished sample_board = Returned g1 ∧ clearUnfinished g1 = Returned g1.
Proof. apply (clearUnfinished_idempotent sample_board). apply reach_deal, reach_initial. Defined.

Lemma getMovableCards_initial : getMovableCards initial = Ok ∅.
Proof. by_compute. Qed.

(** C7 — deal round trip: whatever the random choices of the shuffle,
    dealing from the initial board returns a board with four rows of
    exactly 13 cards each and an empty stock, where every cell holds a card
    whose position is the row and column index of the cell. *)
Theorem deal_initial_full rnd :
  ∃ g, deal rnd initial = Returned g ∧
       length (rows g) = 4 ∧ stock g = [] ∧
       (∀ r row, rows g !! r = Some row → length row = 13) ∧
       (∀ r row k, rows g !! r = Some row → k < 13 →
          ∃ c, row !! k = Some (Some c) ∧ position g !! c = Some (r, k)).
Proof.
  destruct (deal_unblocked rnd initial ∅ Inv_initial getMovableCards_initial)
    as (g & Hrun & HI & Hstock & Hfull & Hrows & _); [done|].
  exists g. split_and!; try done.
  intros r row k Hr Hk.
  destruct (inv_row_defined g HI r row k Hr) as [c Hc].
  { rewrite (Hfull r row Hr). lia. }
  exists c. split; [done|]. by apply (inv_row_pos g HI r row).
Qed.

(** The successor link is the only card one rank higher in the suit. *)
Lemma is_successor_nextRank l c :
  l ∈ Deck.CARDS → is_successor l c → nextRank l = Some c.
Proof.
  intros Hl (Hc & Hsuit & Hlo & Hidx).
  assert (forallb (λ l, forallb (successor_ok l) Deck.CARDS) Deck.CARDS = true) as Hall
    by (vm_compute; reflexivity).
  pose proof (deck_check _ (deck_check _ Hall l Hl) c Hc) as H.
  unfold successor_ok in H.
  rewrite (bool_decide_eq_true_2 (suit c = suit l)),
    (bool_decide_eq_true_2 (0 ≤ rankIndex l)%Z),
    (bool_decide_eq_true_2 (rankIndex c = rankIndex l + 1)%Z) in H by assumption.
  by apply bool_decide_eq_true in H.
Qed.

Lemma nextRank_is_successor l c : nextRank l = Some c → is_successor l c.
Proof.
  intros (? & _ & _ & ? & ? & ? & _)%nextRank_Some. by repeat split.
Qed.

(** C8 — movable-card derivation: on every reachable board getMovableCards
    returns the set that the specification describes: every placed blank
    in column 0 contributes the rank-2 cards of the deck, every other placed
    blank the successor of the card on its left when that card is neither
    blank nor a king; blanks in the stock contribute nothing, and the
    result has no duplicates. *)
Theorem movable_derivation g :
  reachable g →
  ∃ M, getMovableCards g = Ok M ∧
       (∀ x, x ∈ M ↔ ∃ c, x = Some c ∧ movable_spec g c) ∧
       NoDup (elements M).
Proof.
  intros HI%reachable_Inv. eexists. split; [apply (getMovableCards_inv g HI)|].
  split; [|apply NoDup_elements].
  intros x. rewrite elem_of_union_list. split.
  - intros (X & HX & Hx). apply list_elem_of_fmap in HX as (b & -> & Hb).
    unfold nominated in Hx.
    destruct (position g !! b) as [[r [|k]]|] eqn:Hpos; [| |by apply elem_of_empty in Hx].
    + apply elem_of_list_to_set, list_elem_of_fmap in Hx as (c & -> & Hc).
      apply elem_of_getCardsByRank in Hc as [Hc Hrank].
      exists c. split; [done|]. exists b, r, 0. split_and!; [done..|]. by left.
    + destruct (cell (rows g) r k) as [l|] eqn:Hl; [|by apply elem_of_empty in Hx].
      destruct (negb (isBlank l) && negb (bool_decide (rank l = "K"))) eqn:Hcond;
        [|by apply elem_of_empty in Hx].
      apply elem_of_singleton in Hx as ->.
      apply andb_true_iff in Hcond as [Hnb%negb_true_iff HnK%negb_true_iff].
      apply bool_decide_eq_false in HnK.
      assert (l ∈ Deck.CARDS) as Hld.
      { apply (inv_deck g HI), elem_of_app. right. apply elem_of_grid. eauto. }
      destruct (nextRank l) as [n|] eqn:Hn.
      * exists n. split; [done|]. exists b, r, (S k). split_and!; [done..|].
        right. split; [done|]. exists l. rewrite Nat.sub_1_r. simpl.
        split_and!; [done..|]. by apply nextRank_is_successor.
      * destruct (nextRank_None l Hld Hn); congruence.
  - intros (c & -> & b & r & k & Hb & Hpos & Hkind).
    exists (nominated g b). split; [by apply list_elem_of_fmap_2|].
    unfold nominated. rewrite Hpos.
    destruct Hkind as [(-> & Hc & Hrank)|(Hk & l & Hl & Hnb & HnK & Hsucc)].
    + apply elem_of_list_to_set, list_elem_of_fmap_2.
      by apply elem_of_getCardsByRank.
    + destruct k as [|k]; [done|]. rewrite Nat.sub_1_r in Hl. simpl in Hl.
      rewrite Hl, Hnb, bool_decide_eq_false_2 by done. simpl.
      apply elem_of_singleton.
      assert (l ∈ Deck.CARDS) as Hld.
      { apply (inv_deck g HI), elem_of_app. right. apply elem_of_grid. eauto. }
      by rewrite (is_successor_nextRank l c Hld Hsucc).
Qed.

Lemma movable_derivation_witness :
  ∃ M, getMovableCards sample_board = Ok M ∧
       (∀ x, x ∈ M ↔ ∃ c, x = Some c ∧ movable_spec sample_board c) ∧
       NoDup (elements M).
Proof. apply (movable_derivation sample_board). apply reach_deal, reach_initial. Defined.

(** C9 — successor/predecessor contract: for every card of the deck,
    nextRank is the card one rank higher in the same suit and prevRank the
    card one rank lower in the same suit; a king has no successor, a 2 no
    predecessor, and a blank has neither.  The links are functions of the
    deck alone: no operation on the board changes them. *)
Theorem successor_predecessor_contract c :
  c ∈ Deck.CARDS →
  (isBlank c = false → rank c ≠ "K" → ∃ n, nextRank c = Some n ∧ is_successor c n) ∧
  (rank c = "K" → nextRank c = None) ∧
  (isBlank c = false → rank c ≠ "2" → ∃ p, prevRank c = Some p ∧ is_successor p c) ∧
  (rank c = "2" → prevRank c = None) ∧
  (isBlank c = true → nextRank c = None ∧ prevRank c = None).
Proof.
  intros Hc. split_and!.
  - intros Hnb HnK. destruct (nextRank c) as [n|] eqn:Hn.
    + exists n. split; [done|]. by apply nextRank_is_successor.
    + destruct (nextRank_None c Hc Hn); congruence.
  - intros HK. destruct (nextRank c) as [n|] eqn:Hn; [|done].
    by apply nextRank_Some in Hn as (_ & _ & _ & _ & _ & _ & _ & _ & _ & ?).
  - intros Hnb Hn2. destruct (prevRank c) as [p|] eqn:Hp.
    + exists p. split; [done|].
      apply prevRank_Some in Hp as (_ & _ & _ & Hn & _).
      by apply nextRank_is_successor.
    + destruct (prevRank_None c Hc Hp); congruence.
  - intros H2. destruct (prevRank c) as [p|] eqn:Hp; [|done].
    by apply prevRank_Some in Hp as (_ & _ & _ & _ & ?).
  - intros Hb. split.
    + destruct (nextRank c) as [n|] eqn:Hn; [|done].
      apply nextRank_Some in Hn as (_ & _ & ? & _). congruence.
    + destruct (prevRank c) as [p|] eqn:Hp; [|done].
      apply prevRank_Some in Hp as (_ & _ & ? & _). congruence.
Qed.

Lemma successor_predecessor_contract_witness :
  (isBlank three_of_clubs = false → rank three_of_clubs ≠ "K" →
     ∃ n, nextRank three_of_clubs = Some n ∧ is_successor three_of_clubs n) ∧
  (rank three_of_clubs = "K" → nextRank three_of_clubs = None) ∧
  (isBlank three_of_clubs = false → rank three_of_clubs ≠ "2" →
     ∃ p, prevRank three_of_clubs = Some p ∧ is_successor p three_of_clubs) ∧
  (rank three_of_clubs = "2" → prevRank three_of_clubs = None) ∧
  (isBlank three_of_clubs = true →
     nextRank three_of_clubs = None ∧ prevRank three_of_clubs = None).
Proof. apply (successor_predecessor_contract three_of_clubs). by_compute. Defined.

(** C10 — clearing unblocks dealing: on every reachable board
    clearUnfinished returns a board where every blank has no position and
    lies in the stock; getMovableCards of that board is empty, and a deal
    that follows is carried out: it raises the deal counter. *)
Theorem clear_unblocks_deal g :
  reachable g →
  ∃ g1, clearUnfinished g = Returned g1 ∧
        (∀ b, b ∈ Deck.getBlanks → position g1 !! b = None ∧ Some b ∈ stock g1) ∧
        getMovableCards g1 = Ok ∅ ∧
        ∀ rnd, ∃ g2, deal rnd g1 = Returned g2 ∧ deals g2 = S (deals g1).
Proof.
  intros HI%reachable_Inv.
  destruct (clearUnfinished_inv g HI) as (g1 & Hrun & _ & _ & _ & _ & HI1 & Hnb).
  exists g1. pose proof (getMovableCards_no_blank g1 HI1 Hnb) as HM.
  split_and!; [done| |done|].
  - intros b [Hb Hblank]%elem_of_getBlanks. split; [by apply Hnb|].
    destruct (inv_cover g1 HI1 b Hb) as [?|[p Hp]]; [done|].
    by rewrite (Hnb b Hblank) in Hp.
  - intros rnd. destruct (deal_unblocked rnd g1 ∅ HI1 HM) as (g2 & ? & _ & _ & _ & _ & ?);
      [done|eauto].
Qed.

Lemma clear_unblocks_deal_witness :
  ∃ g1, clearUnfinished sample_board = Returned g1 ∧
        (∀ b, b ∈ Deck.getBlanks → position g1 !! b = None ∧ Some b ∈ stock g1) ∧
        getMovableCards g1 = Ok ∅ ∧
        ∀ rnd, ∃ g2, deal rnd g1 = Returned g2 ∧ deals g2 = S (deals g1).
Proof. apply (clear_unblocks_deal sample_board). apply reach_deal, reach_initial. Defined.

(** * Further properties of the code *)

(** ** shuffled, enumerate and the deck *)

(** X1 — [shuffled] returns a permutation of its argument, whatever
    [Math.random] answers; in particular it keeps the length. *)
Theorem shuffled_permutation rnd (a : list slot) :
  shuffled rnd a ≡ₚ a ∧ length (shuffled rnd a) = length a.
Proof.
  pose proof (shuffled_perm rnd a) as H. split; [done|].
  by apply Permutation_length.
Qed.

Lemma shuffle_loop_ext rnd rnd' i (a : list slot) :
  (∀ k, k ≤ i → rnd k = rnd' k) → shuffle_loop rnd i a = shuffle_loop rnd' i a.
Proof.
  revert a. induction i as [|i IH]; intros a Hext; [done|].
  cbn [shuffle_loop]. rewrite (Hext (S i)) by lia. apply IH.
  intros k Hk. apply Hext. lia.
Qed.

Lemma swap_cells_eq (a : list slot) i j x y :
  a !! i = Some x → a !! j = Some y →
  swap_cells a i j = <[j := x]> (<[i := y]> a).
Proof.
  intros Hx Hy. unfold swap_cells. by rewrite !slot_get_nat, Hx, Hy.
Qed.

Lemma shuffle_loop_reaches i : ∀ a b : list slot,
  length a = length b → i < length a →
  take (S i) a ≡ₚ take (S i) b → drop (S i) a = drop (S i) b →
  ∃ rnd, shuffle_loop rnd i a = b.
Proof.
  induction i as [|i IH]; intros a b Hlen Hi Htake Hdrop.
  - exists (λ k : nat, k). simpl.
    rewrite <- (take_drop 1 a), <- (take_drop 1 b), Hdrop. f_equal.
    destruct a as [|x a], b as [|y b]; simpl in *; try lia.
    rewrite !take_0 in *. by apply Permutation_singleton_r in Htake.
  - destruct (lookup_lt_is_Some_2 b (S i)) as [y Hy]; [lia|].
    destruct (lookup_lt_is_Some_2 a (S i)) as [x Hx]; [lia|].
    assert (y ∈ take (S (S i)) a) as Hin.
    { rewrite Htake. apply list_elem_of_lookup. exists (S i).
      rewrite lookup_take_lt by lia. done. }
    apply list_elem_of_lookup in Hin as [j Hj].
    apply lookup_take_Some in Hj as [Hj Hjlt].
    set (a' := swap_cells a (S i) j).
    assert (a' = <[j := x]> (<[S i := y]> a)) as Ha' by by apply swap_cells_eq.
    assert (a' ≡ₚ a) as Hperm.
    { apply swap_cells_perm; [lia|]. by eapply lookup_lt_Some. }
    assert (length a' = length a) as Hlen' by by apply Permutation_length.
    assert (a' !! S i = Some y) as Hy'.
    { rewrite Ha'. destruct (decide (j = S i)) as [->|Hne].
      - rewrite list_lookup_insert_eq by (rewrite length_insert; lia). congruence.
      - rewrite list_lookup_insert_ne by done.
        by rewrite list_lookup_insert_eq by lia. }
    assert (drop (S (S i)) a' = drop (S (S i)) a) as Hdrop'.
    { rewrite Ha'. by rewrite !drop_insert_lt by lia. }
    assert (take (S (S i)) a' ≡ₚ take (S (S i)) a) as Htake'.
    { apply (Permutation_app_inv_r (drop (S (S i)) a)).
      rewrite <- Hdrop' at 1. by rewrite !take_drop. }
    destruct (IH a' b) as [rnd' Hrnd']; [lia|lia| | |].
    + apply (Permutation_app_inv_r [y]).
      rewrite <- (take_S_r a' (S i) y), <- (take_S_r b (S i) y) by done.
      by rewrite Htake'.
    + rewrite (drop_S a' y (S i)), (drop_S b y (S i)) by done.
      by rewrite Hdrop', Hdrop.
    + exists (λ k, if decide (k = S i) then j else rnd' k).
      cbn [shuffle_loop]. rewrite decide_True by done.
      rewrite Nat.mod_small by lia. fold a'.
      rewrite <- Hrnd'. apply shuffle_loop_ext.
      intros k Hk. by rewrite decide_False by lia.
Qed.

(** X2 — every arrangement can come out of the shuffle: for each
    permutation of the argument there are answers of [Math.random] for which
    [shuffled] returns it. *)
Theorem shuffled_reaches_every_permutation (a b : list slot) :
  a ≡ₚ b → ∃ rnd, shuffled rnd a = b.
Proof.
  intros Hperm. pose proof (Permutation_length Hperm) as Hlen.
  unfold shuffled. destruct a as [|x a].
  - apply Permutation_nil_l in Hperm. subst b. by exists (λ k : nat, k).
  - replace (length (x :: a) - 1) with (length a) by (simpl; lia).
    apply shuffle_loop_reaches.
    + done.
    + simpl. lia.
    + change (S (length a)) with (length (x :: a)).
      rewrite firstn_all, Hlen, firstn_all. done.
    + change (S (length a)) with (length (x :: a)).
      rewrite drop_all, Hlen, drop_all. done.
Qed.

Lemma shuffled_reaches_every_permutation_witness :
  ∃ rnd, shuffled rnd [Some two_of_clubs; Some three_of_clubs; Some four_of_diamonds]
         = [Some four_of_diamonds; Some two_of_clubs; Some three_of_clubs].
Proof.
  apply (shuffled_reaches_every_permutation
           [Some two_of_clubs; Some three_of_clubs; Some four_of_diamonds]
           [Some four_of_diamonds; Some two_of_clubs; Some three_of_clubs]).
  symmetry. apply (Permutation_cons_append [_; _]).
Defined.


Lemma cards_by_key_fold (l : list Card) (m : gmap string Card) k c :
  foldl (λ m card, <[key card := card]> m) m l !! k = Some c →
  (c ∈ l ∧ key c = k) ∨ m !! k = Some c.
Proof.
  revert m. induction l as [|x l IH]; intros m; simpl; [by right|].
  intros [[Hin Hk]|Hm]%IH.
  - left. split; [by right|done].
  - destruct (decide (key x = k)) as [<-|Hne].
    + rewrite lookup_insert_eq in Hm. injection Hm as <-. left. split; [left|done].
    + rewrite lookup_insert_ne in Hm by done. by right.
Qed.

Lemma cards_by_key_get c :
  c ∈ Deck.CARDS → Deck.CARDS_BY_KEY !! key c = Some c.
Proof.
  intros Hc. assert (key_ok c = true) as H.
  { revert c Hc. apply deck_check. by vm_compute. }
  by apply bool_decide_eq_true in H.
Qed.

(** X4 — lookup by key round trip: [CARDS_BY_KEY.get(k)] is a card exactly
    when that card belongs to the deck and has key [k]; so the key of a deck
    card leads back to the card, and any other string gives [undefined]. *)
Theorem cards_by_key_lookup k c :
  Deck.CARDS_BY_KEY !! k = Some c ↔ c ∈ Deck.CARDS ∧ key c = k.
Proof.
  split.
  - intros [?|H]%cards_by_key_fold; [done|]. by rewrite lookup_empty in H.
  - intros [Hc <-]. by apply cards_by_key_get.
Qed.

(** X5 — the keys identify the cards of the deck: two cards of the deck
    with the same key are the same card. *)
Theorem key_injective c1 c2 :
  c1 ∈ Deck.CARDS → c2 ∈ Deck.CARDS → key c1 = key c2 → c1 = c2.
Proof.
  intros H1%cards_by_key_get H2%cards_by_key_get Hk.
  rewrite Hk in H1. congruence.
Qed.

Lemma key_injective_witness : two_of_clubs = mkCard "2" "C".
Proof. apply (key_injective two_of_clubs (mkCard "2" "C")); by_compute. Defined.

(** X6 — [Deck.getCardsByRank] returns, for every rank of [RANKS], the
    four cards of that rank in the order of the suits, and never a blank. *)
Theorem getCardsByRank_rank r :
  r ∈ RANKS →
  Deck.getCardsByRank r = [mkCard r "C"; mkCard r "D"; mkCard r "H"; mkCard r "S"] ∧
  ∀ c, c ∈ Deck.getCardsByRank r → isBlank c = false.
Proof.
  intros Hr.
  assert (forallb rank_ok RANKS = true) as Hall by (vm_compute; reflexivity).
  rewrite forallb_forall in Hall. specialize (Hall r).
  unfold rank_ok in Hall. rewrite bool_decide_eq_true in Hall.
  rewrite Hall by by apply list_elem_of_In. split; [done|].
  intros c Hc. simpl in Hc.
  repeat (apply elem_of_cons in Hc as [->|Hc]); try done.
  by apply elem_of_nil in Hc.
Qed.

Lemma getCardsByRank_rank_witness :
  Deck.getCardsByRank "10"
  = [mkCard "10" "C"; mkCard "10" "D"; mkCard "10" "H"; mkCard "10" "S"] ∧
  ∀ c, c ∈ Deck.getCardsByRank "10" → isBlank c = false.
Proof. apply (getCardsByRank_rank "10"). by_compute. Defined.

(** X7 — the colour of a card of the deck: a blank has none ([null]), and
    every other card has one, black for clubs and spades, red for diamonds
    and hearts; the lookup in [Card.SUITS] never misses. *)
Theorem color_of_deck_card c :
  c ∈ Deck.CARDS →
  if isBlank c then color c = None
  else color c = Some "black" ∧ suit c ∈ ["C"; "S"]
       ∨ color c = Some "red" ∧ suit c ∈ ["D"; "H"].
Proof.
  intros Hc. assert (color_ok c = true) as H.
  { revert c Hc. apply deck_check. by vm_compute. }
  unfold color_ok in H. destruct (isBlank c); by apply bool_decide_eq_true in H.
Qed.

Lemma color_of_deck_card_witness :
  if isBlank four_of_diamonds then color four_of_diamonds = None
  else color four_of_diamonds = Some "black" ∧ suit four_of_diamonds ∈ ["C"; "S"]
       ∨ color four_of_diamonds = Some "red" ∧ suit four_of_diamonds ∈ ["D"; "H"].
Proof. apply (color_of_deck_card four_of_diamonds). by_compute. Defined.

(** X8 — the loop of [getFinalizedCards] ends on every board, reachable or
    not, and for every starting card: twelve iterations are enough, and
    more fuel gives the same result. *)
Theorem finalized_loop_terminates g F c n :
  ∃ r, walk_fuel (length RANKS) g F c = Some r ∧
       walk_fuel (length RANKS + n) g F c = Some r.
Proof.
  destruct (walk_terminates g F c) as [r Hr]. exists r. split; [done|].
  induction n as [|n IH]; [by rewrite Nat.add_0_r|].
  rewrite Nat.add_succ_r. by apply walk_fuel_mono.
Qed.

(** ** Errors on reachable boards *)

(** X9 — on a reachable board the queries, [clearUnfinished] and [deal]
    never raise an exception. *)
Theorem reachable_no_exception g :
  reachable g →
  (∃ M, getMovableCards g = Ok M) ∧ (∃ F, getFinalizedCards g = Ok F) ∧
  (∃ g', clearUnfinished g = Returned g') ∧ (∀ rnd, ∃ g', deal rnd g = Returned g').
Proof.
  intros HI%reachable_Inv. split_and!.
  - eexists. apply (getMovableCards_inv g HI).
  - eexists. apply (getFinalizedCards_inv g HI).
  - destruct (clearUnfinished_inv g HI) as (g' & ? & _). eauto.
  - intros rnd. destruct (deal_inv rnd g HI) as (g' & ? & _). eauto.
Qed.

Lemma reachable_no_exception_witness :
  (∃ M, getMovableCards sample_board = Ok M) ∧
  (∃ F, getFinalizedCards sample_board = Ok F) ∧
  (∃ g', clearUnfinished sample_board = Returned g') ∧
  (∀ rnd, ∃ g', deal rnd sample_board = Returned g').
Proof. apply (reachable_no_exception sample_board). apply reach_deal, reach_initial. Defined.

(** X10 — on a reachable board [move] raises an exception exactly for a
    blank and for a card whose predecessor has no position (is in the
    stock); every other call returns. *)
Theorem move_throws_iff g c :
  reachable g → c ∈ Deck.CARDS →
  (∃ g', move c g = Threw g') ↔
  isBlank c = true ∨ ∃ p, prevRank c = Some p ∧ position g !! p = None.
Proof.
  intros Hreach Hc. pose proof (reachable_Inv g Hreach) as HI. split.
  - intros [g' Hmove].
    destruct (move_effect_inv g HI c Hc) as [|Hrank Hwhy|dest pc pd Hb Hcb Hpc Hpd _].
    + done.
    + destruct Hwhy as [Hnone|?]; [left|by right].
      destruct (prevRank_None c Hc Hnone); [done|congruence].
    + assert (c ≠ dest) as Hne by (intros ->; congruence).
      destruct (swap_inv g HI c dest pc pd Hpc Hpd Hne) as (g'' & Hswap & _).
      congruence.
  - intros [Hb|(p & Hp & Hpos)]; exists g.
    + apply move_blank_throws. by apply elem_of_getBlanks.
    + apply (move_undealt_predecessor g c p); [|done..].
      by apply prevRank_Some in Hp as (_ & _ & _ & _ & ?).
Qed.

Lemma move_throws_iff_witness :
  (∃ g', move three_of_clubs initial = Threw g') ↔
  isBlank three_of_clubs = true
  ∨ ∃ p, prevRank three_of_clubs = Some p ∧ position initial !! p = None.
Proof.
  apply (move_throws_iff initial three_of_clubs); [apply reach_initial|by_compute].
Defined.

(** ** Neighbours *)

(** X11 — neighbour round trip: on a reachable board, when [cardToRight]
    of a card is a card, [cardToLeft] of that card is the first one; and
    the same from left to right. *)
Theorem neighbour_round_trip g c d :
  reachable g →
  (cardToRight g c = Ok (Some d) → cardToLeft g d = Ok (Some c)) ∧
  (cardToLeft g c = Ok (Some d) → cardToRight g d = Ok (Some c)).
Proof.
  intros HI%reachable_Inv. unfold cardToRight, cardToLeft, neighbour. split.
  - destruct (position g !! c) as [[r k]|] eqn:Hc; [|done].
    destruct (inv_pos_row g HI c r k Hc) as (row & Hr & Hk & _).
    rewrite Hr, slot_get_succ. intros [= Hd].
    destruct (row !! S k) as [[d'|]|] eqn:Hd'; simplify_eq/=.
    rewrite (inv_row_pos g HI r row (S k) d Hr Hd'), Hr, slot_get_pred.
    by rewrite Hk.
  - destruct (position g !! c) as [[r k]|] eqn:Hc; [|done].
    destruct (inv_pos_row g HI c r k Hc) as (row & Hr & Hk & _).
    rewrite Hr. destruct k as [|k]; [done|].
    rewrite slot_get_pred. intros [= Hd].
    destruct (row !! k) as [[d'|]|] eqn:Hd'; simplify_eq/=.
    rewrite (inv_row_pos g HI r row k d Hr Hd'), Hr, slot_get_succ.
    by rewrite Hk.
Qed.

Lemma neighbour_round_trip_witness :
  (cardToRight sample_board two_of_clubs = Ok (Some three_of_clubs) →
   cardToLeft sample_board three_of_clubs = Ok (Some two_of_clubs)) ∧
  (cardToLeft sample_board two_of_clubs = Ok (Some three_of_clubs) →
   cardToRight sample_board three_of_clubs = Ok (Some two_of_clubs)).
Proof.
  apply (neighbour_round_trip sample_board two_of_clubs three_of_clubs).
  apply reach_deal, reach_initial.
Defined.

(** ** The finalized set *)

(** Inside the finalized prefix a card sits in the column of its rank and
    has the suit of the 2 that heads the row. *)
Lemma prefix_rank_suit row k c :
  k < prefix_len row → row !! k = Some (Some c) →
  rankIndex c = Z.of_nat k ∧
  ∃ h, row !! 0 = Some (Some h) ∧ rank h = "2" ∧ suit c = suit h.
Proof.
  revert c. induction k as [|k IH]; intros c Hlt Hc.
  - destruct (prefix_len_lookup row 0 Hlt) as (x & Hx & Hrank).
    assert (x = c) as -> by congruence. split.
    + unfold rankIndex. by rewrite Hrank.
    + by exists c.
  - destruct (prefix_len_lookup row (S k) Hlt) as (x & Hx & p & Hp & Hn).
    assert (x = c) as -> by congruence.
    destruct (IH p) as (Hidx & h & Hh & Hrank & Hsuit); [lia|done|].
    apply nextRank_Some in Hn as (_ & _ & _ & Hs & Hi & _).
    split; [lia|]. exists h. split_and!; [done..|congruence].
Qed.

(** X12 — on a reachable board every finalized card lies on the board in
    the column of its rank (the 2 in column 0, the 3 in column 1, ...), has
    the suit of the 2 at the head of its row, and is no blank. *)
Theorem finalized_card_place g F c :
  reachable g → getFinalizedCards g = Ok F → c ∈ F →
  isBlank c = false ∧
  ∃ r k h, position g !! c = Some (r, k) ∧ rankIndex c = Z.of_nat k ∧
           position g !! h = Some (r, 0) ∧ rank h = "2" ∧ suit c = suit h.
Proof.
  intros HI%reachable_Inv HF Hc.
  rewrite (getFinalizedCards_inv g HI) in HF. injection HF as <-.
  split; [by apply (finalized_not_blank g HI)|].
  apply elem_of_finalized_of in Hc as (r & row & k & Hr & Hk & Hlt).
  destruct (prefix_rank_suit row k c Hlt Hk) as (Hidx & h & Hh & Hrank & Hsuit).
  exists r, k, h. split_and!; try done; by apply (inv_row_pos g HI r row).
Qed.

Lemma finalized_card_place_witness :
  isBlank three_of_clubs = false ∧
  ∃ r k h, position sample_board !! three_of_clubs = Some (r, k) ∧
           rankIndex three_of_clubs = Z.of_nat k ∧
           position sample_board !! h = Some (r, 0) ∧ rank h = "2" ∧
           suit three_of_clubs = suit h.
Proof.
  apply (finalized_card_place sample_board sample_finalized three_of_clubs).
  - apply reach_deal, reach_initial.
  - by_compute.
  - by_compute.
Defined.

(** X13 — the finalized set is closed to the left: on a reachable board a
    finalized card that is not in column 0 has its predecessor immediately
    on its left, and that predecessor is finalized too. *)
Theorem finalized_left_closed g F c r k :
  reachable g → getFinalizedCards g = Ok F → c ∈ F →
  position g !! c = Some (r, S k) →
  ∃ p, prevRank c = Some p ∧ position g !! p = Some (r, k) ∧ p ∈ F.
Proof.
  intros HI%reachable_Inv HF Hc Hpos.
  rewrite (getFinalizedCards_inv g HI) in HF. injection HF as <-.
  destruct (inv_pos_row g HI c r (S k) Hpos) as (row & Hr & Hk & _).
  apply (finalized_in_row g HI r row (S k) c Hr Hk) in Hc.
  destruct (prefix_len_lookup row (S k) Hc) as (x & Hx & p & Hp & Hn).
  assert (x = c) as -> by congruence.
  exists p. split_and!.
  - by apply nextRank_Some in Hn as (_ & _ & _ & _ & _ & _ & _ & ? & _).
  - by apply (inv_row_pos g HI r row).
  - apply (finalized_in_row g HI r row k p Hr Hp). lia.
Qed.

Lemma finalized_left_closed_witness :
  ∃ p, prevRank three_of_clubs = Some p ∧ position sample_board !! p = Some (0, 0) ∧
       p ∈ sample_finalized.
Proof.
  apply (finalized_left_closed sample_board sample_finalized three_of_clubs 0 0).
  - apply reach_deal, reach_initial.
  - by_compute.
  - by_compute.
  - by_compute.
Defined.

(** ** clearUnfinished and deal *)

Lemma finalized_of_cleared g : finalized_of (cleared_rows g) = finalized_of (rows g).
Proof.
  unfold finalized_of, cleared_rows. rewrite <- list_fmap_compose. f_equal.
  apply list_fmap_ext. intros r row _. simpl. unfold finalized_of_row.
  by rewrite prefix_len_take, take_take, Nat.min_id.
Qed.

(** X14 — [clearUnfinished] on a reachable board keeps every finalized
    card where it is and sends every other card of the deck to the stock
    with a [null] position; the finalized set and the deal counter do not
    change, and the old stock stays at the front of the new one. *)
Theorem clearUnfinished_frame g F :
  reachable g → getFinalizedCards g = Ok F →
  ∃ g1, clearUnfinished g = Returned g1 ∧
        getFinalizedCards g1 = Ok F ∧ deals g1 = deals g ∧
        stock g `prefix_of` stock g1 ∧
        (∀ c, c ∈ F → position g1 !! c = position g !! c) ∧
        (∀ c, c ∈ Deck.CARDS → c ∉ F → position g1 !! c = None ∧ Some c ∈ stock g1).
Proof.
  intros HI%reachable_Inv HF.
  rewrite (getFinalizedCards_inv g HI) in HF. injection HF as <-.
  destruct (clearUnfinished_inv g HI) as (g1 & Hrun & Hs & Hr & Hd & Hp & HI1 & _).
  exists g1. split_and!; try done.
  - by rewrite (getFinalizedCards_inv g1 HI1), Hr, finalized_of_cleared.
  - rewrite Hs. unfold cleared_stock. by eexists.
  - intros c Hc. rewrite Hp, decide_False; [done|].
    apply elem_of_finalized_of in Hc as (r & row & k & Hrow & Hk & Hlt).
    assert (cell (cleared_rows g) r k = Some c) as Hcell.
    { apply cell_Some. exists (take (prefix_len row) row). split.
      - unfold cleared_rows. by rewrite list_lookup_fmap, Hrow.
      - by rewrite lookup_take_lt. }
    by apply (clear_cell g HI) in Hcell as [_ ?].
  - intros c Hc Hnot.
    assert (Some c ∈ cleared_stock g) as Hin.
    { unfold cleared_stock. apply elem_of_app.
      destruct (inv_cover g HI c Hc) as [?|[[r k] Hpos]]; [by left|right].
      destruct (inv_pos_row g HI c r k Hpos) as (row & Hrow & Hk & _).
      apply elem_of_drops. exists r, row, k. split_and!; [done..|].
      destruct (decide (k < prefix_len row)) as [Hlt|]; [|lia].
      by apply (finalized_in_row g HI r row k c Hrow Hk) in Hlt. }
    split; [by rewrite Hp, decide_True|by rewrite Hs].
Qed.

Lemma clearUnfinished_frame_witness :
  ∃ g1, clearUnfinished sample_board = Returned g1 ∧
        getFinalizedCards g1 = Ok sample_finalized ∧ deals g1 = deals sample_board ∧
        stock sample_board `prefix_of` stock g1 ∧
        (∀ c, c ∈ sample_finalized → position g1 !! c = position sample_board !! c) ∧
        (∀ c, c ∈ Deck.CARDS → c ∉ sample_finalized →
              position g1 !! c = None ∧ Some c ∈ stock g1).
Proof.
  apply (clearUnfinished_frame sample_board sample_finalized).
  - apply reach_deal, reach_initial.
  - by_compute.
Defined.

Lemma deal_row_segment i : ∀ st row pos row' st' pos',
  deal_row i row st pos = (row', st', pos', true) →
  ∃ seg, row' = row ++ seg ∧ st = seg ++ st'.
Proof.
  induction st as [|s st IH]; intros row pos row' st' pos'; cbn [deal_row].
  - case_decide; [done|]. intros [= <- <- _]. exists []. by rewrite (right_id_L [] (++)).
  - case_decide.
    + destruct s as [c|]; [|done]. intros (seg & -> & ->)%IH.
      exists (Some c :: seg). by rewrite <- (assoc_L (++)).
    + intros [= <- <- _]. exists []. by rewrite (right_id_L [] (++)).
Qed.

Lemma deal_rows_segments rs : ∀ i st pos rs' st' pos',
  deal_rows i rs st pos = (rs', st', pos', true) →
  ∃ segs, length segs = length rs ∧ rs' = zip_with (++) rs segs ∧
          st = mjoin segs ++ st'.
Proof.
  induction rs as [|row rs IH]; intros i st pos rs' st' pos'; cbn [deal_rows].
  - intros [= <- <- _]. by exists [].
  - destruct (deal_row i row st pos) as [[[row1 st1] pos1] ok1] eqn:Hrow.
    destruct ok1; [|done].
    destruct (deal_rows (S i) rs st1 pos1) as [[[rs2 st2] pos2] ok2] eqn:Hrows.
    intros [= <- <- _ ->].
    apply deal_row_segment in Hrow as (seg & -> & ->).
    apply IH in Hrows as (segs & Hlen & -> & ->).
    exists (seg :: segs). split_and!; [simpl; lia|done|].
    simpl. by rewrite <- (assoc_L (++)).
Qed.

(** What an unblocked [deal] makes of a reachable board. *)
Lemma deal_layout rnd g :
  Inv g → getMovableCards g = Ok ∅ →
  ∃ g' segs, deal rnd g = Returned g' ∧ Inv g' ∧ length segs = 4 ∧
             rows g' = zip_with (++) (cleared_rows g) segs ∧
             mjoin segs = shuffled rnd (cleared_stock g) ∧
             stock g' = [] ∧ deals g' = S (deals g) ∧
             (∀ r row, rows g' !! r = Some row → length row = 13).
Proof.
  intros HI HM.
  destruct (deal_unblocked rnd g ∅ HI HM) as (g' & Hrun & HI' & Hs & Hfull & _ & Hd);
    [done|].
  exists g'. pose proof Hrun as Hdeal. unfold deal in Hrun.
  rewrite HM, decide_False in Hrun by (rewrite size_empty; lia).
  destruct (clearUnfinished_inv g HI) as (g1 & Hclear & Hs1 & Hr1 & _ & _ & HI1 & _).
  rewrite Hclear in Hrun.
  destruct (deal_rows 0 (rows g1) (shuffled rnd (stock g1)) (position g1))
    as [[[rs' st'] pos'] ok] eqn:Hrows.
  destruct ok; [|done]. injection Hrun as <-. simpl in *.
  apply deal_rows_segments in Hrows as (segs & Hlen & -> & Hst).
  exists segs. subst st'. rewrite (right_id_L [] (++)) in Hst.
  assert (length segs = 4) as Hlen4 by by rewrite Hlen, (inv_rows g1 HI1).
  rewrite Hr1 in *. rewrite Hs1 in Hst. by split_and!.
Qed.

Lemma chain_len_app c l l' : chain_len c l ≤ chain_len c (l ++ l').
Proof.
  revert c. induction l as [|[x|] l IH]; intros c; simpl; try lia.
  case_decide; [|lia]. specialize (IH x). lia.
Qed.

Lemma prefix_len_app l l' : prefix_len l ≤ prefix_len (l ++ l').
Proof.
  destruct l as [|[c|] l]; simpl; try lia.
  case_decide; [|lia]. pose proof (chain_len_app c l l'). lia.
Qed.

(** X15 — [deal] never displaces a finalized card: on a reachable board,
    blocked or not, every card that is finalized before the deal has the
    same position after it and is finalized again. *)
Theorem deal_keeps_finalized rnd g F c :
  reachable g → getFinalizedCards g = Ok F → c ∈ F →
  ∃ g' F', deal rnd g = Returned g' ∧ getFinalizedCards g' = Ok F' ∧
           position g' !! c = position g !! c ∧ c ∈ F'.
Proof.
  intros HI%reachable_Inv HF Hc.
  pose proof (getMovableCards_inv g HI) as HM.
  destruct (decide (0 < size (⋃ (nominated g <$> Deck.getBlanks)))) as [Hpos|Hz].
  { exists g, F. by rewrite (deal_blocked rnd g _ HM Hpos). }
  assert (⋃ (nominated g <$> Deck.getBlanks) = ∅) as HM0.
  { apply leibniz_equiv, size_empty_iff. lia. }
  rewrite HM0 in HM.
  destruct (deal_layout rnd g HI HM) as (g' & segs & Hrun & HI' & Hlen & Hrows & _).
  exists g', (finalized_of (rows g')).
  rewrite (getFinalizedCards_inv g HI) in HF. injection HF as <-.
  apply elem_of_finalized_of in Hc as (r & row & k & Hr & Hk & Hlt).
  destruct (lookup_lt_is_Some_2 segs r) as [seg Hseg].
  { rewrite Hlen, <- (inv_rows g HI). by eapply lookup_lt_Some. }
  assert (rows g' !! r = Some (take (prefix_len row) row ++ seg)) as Hr'.
  { rewrite Hrows. apply lookup_zip_with_Some. eexists _, _.
    split_and!; [done| |done]. unfold cleared_rows. by rewrite list_lookup_fmap, Hr. }
  assert ((take (prefix_len row) row ++ seg) !! k = Some (Some c)) as Hk'.
  { rewrite lookup_app_l by (rewrite length_take; pose proof (prefix_len_le row); lia).
    by rewrite lookup_take_lt. }
  split_and!; [done|apply (getFinalizedCards_inv g' HI')| |].
  - rewrite (inv_row_pos g' HI' r _ k c Hr' Hk').
    symmetry. by apply (inv_row_pos g HI r row).
  - apply (finalized_in_row g' HI' r _ k c Hr' Hk').
    pose proof (prefix_len_app (take (prefix_len row) row) seg).
    rewrite prefix_len_take in *. lia.
Qed.

Lemma deal_keeps_finalized_witness :
  ∃ g' F', deal sample_choices sample_board = Returned g' ∧
           getFinalizedCards g' = Ok F' ∧
           position g' !! two_of_clubs = position sample_board !! two_of_clubs ∧
           two_of_clubs ∈ F'.
Proof.
  apply (deal_keeps_finalized sample_choices sample_board sample_finalized two_of_clubs).
  - apply reach_deal, reach_initial.
  - by_compute.
  - by_compute.
Defined.

(** X16 — a deal that is not blocked fills the board: on a reachable board
    without movable cards, [deal] returns a board with an empty stock and
    rows of 13 cards, and the deal counter goes up by one. *)
Theorem deal_fills_board rnd g :
  reachable g → getMovableCards g = Ok ∅ →
  ∃ g', deal rnd g = Returned g' ∧ stock g' = [] ∧ deals g' = S (deals g) ∧
        length (rows g') = 4 ∧ ∀ r row, rows g' !! r = Some row → length row = 13.
Proof.
  intros HI%reachable_Inv HM.
  destruct (deal_layout rnd g HI HM) as (g' & segs & ? & HI' & _ & _ & _ & ? & ? & ?).
  exists g'. split_and!; try done. apply (inv_rows g' HI').
Qed.

Lemma deal_fills_board_witness :
  ∃ g', deal sample_choices stuck_board = Returned g' ∧ stock g' = [] ∧
        deals g' = S (deals stuck_board) ∧ length (rows g') = 4 ∧
        ∀ r row, rows g' !! r = Some row → length row = 13.
Proof.
  apply (deal_fills_board sample_choices stuck_board);
    [apply reach_deal, reach_initial|by_compute].
Defined.

(** X17 — [deal] deals from the front of the shuffled stock, row by row:
    on a reachable board without movable cards every row keeps the prefix
    that clearing leaves of it, and the cards added to the rows, read row
    by row, are the shuffled stock in its order. *)
Theorem deal_lays_out_shuffled_stock rnd g :
  reachable g → getMovableCards g = Ok ∅ →
  ∃ g' segs, deal rnd g = Returned g' ∧
             rows g' = zip_with (++) (cleared_rows g) segs ∧ length segs = 4 ∧
             mjoin segs = shuffled rnd (cleared_stock g).
Proof.
  intros HI%reachable_Inv HM.
  destruct (deal_layout rnd g HI HM) as (g' & segs & ? & _ & ? & ? & ? & _).
  by exists g', segs.
Qed.

Lemma deal_lays_out_shuffled_stock_witness :
  ∃ g' segs, deal sample_choices stuck_board = Returned g' ∧
             rows g' = zip_with (++) (cleared_rows stuck_board) segs ∧
             length segs = 4 ∧
             mjoin segs = shuffled sample_choices (cleared_stock stuck_board).
Proof.
  apply (deal_lays_out_shuffled_stock sample_choices stuck_board);
    [apply reach_deal, reach_initial|by_compute].
Defined.

(** ** Moves *)

Lemma elem_of_movable g x :
  Inv g →
  x ∈ ⋃ (nominated g <$> Deck.getBlanks) ↔ ∃ c, x = Some c ∧ movable_spec g c.
Proof.
  intros HI. rewrite elem_of_union_list. split.
  - intros (X & HX & Hx). apply list_elem_of_fmap in HX as (b & -> & Hb).
    unfold nominated in Hx.
    destruct (position g !! b) as [[r [|k]]|] eqn:Hpos; [| |by apply elem_of_empty in Hx].
    + apply elem_of_list_to_set, list_elem_of_fmap in Hx as (c & -> & Hc).
      apply elem_of_getCardsByRank in Hc as [Hc Hrank].
      exists c. split; [done|]. exists b, r, 0. split_and!; [done..|]. by left.
    + destruct (cell (rows g) r k) as [l|] eqn:Hl; [|by apply elem_of_empty in Hx].
      destruct (negb (isBlank l) && negb (bool_decide (rank l = "K"))) eqn:Hcond;
        [|by apply elem_of_empty in Hx].
      apply elem_of_singleton in Hx as ->.
      apply andb_true_iff in Hcond as [Hnb%negb_true_iff HnK%negb_true_iff].
      apply bool_decide_eq_false in HnK.
      assert (l ∈ Deck.CARDS) as Hld.
      { apply (inv_deck g HI), elem_of_app. right. apply elem_of_grid. eauto. }
      destruct (nextRank l) as [n|] eqn:Hn.
      * exists n. split; [done|]. exists b, r, (S k). split_and!; [done..|].
        right. split; [done|]. exists l. rewrite Nat.sub_1_r. simpl.
        split_and!; [done..|]. by apply nextRank_is_successor.
      * destruct (nextRank_None l Hld Hn); congruence.
  - intros (c & -> & b & r & k & Hb & Hpos & Hkind).
    exists (nominated g b). split; [by apply list_elem_of_fmap_2|].
    unfold nominated. rewrite Hpos.
    destruct Hkind as [(-> & Hc & Hrank)|(Hk & l & Hl & Hnb & HnK & Hsucc)].
    + apply elem_of_list_to_set, list_elem_of_fmap_2.
      by apply elem_of_getCardsByRank.
    + destruct k as [|k]; [done|]. rewrite Nat.sub_1_r in Hl. simpl in Hl.
      rewrite Hl, Hnb, bool_decide_eq_false_2 by done. simpl.
      apply elem_of_singleton.
      assert (l ∈ Deck.CARDS) as Hld.
      { apply (inv_deck g HI), elem_of_app. right. apply elem_of_grid. eauto. }
      by rewrite (is_successor_nextRank l c Hld Hsucc).
Qed.

Lemma elem_of_blanksFirstColumn g b :
  b ∈ blanksFirstColumn g ↔ b ∈ Deck.getBlanks ∧ ∃ r, position g !! b = Some (r, 0).
Proof.
  unfold blanksFirstColumn. rewrite sort_by_row_perm, list_elem_of_filter.
  unfold column_of. split.
  - intros [Hcol Hb]. split; [done|].
    destruct (position g !! b) as [[r k]|]; simplify_eq/=. eauto.
  - intros [Hb [r Hr]]. by rewrite Hr.
Qed.

Lemma insert_by_row_sorted g c l :
  StronglySorted (row_le g) l → StronglySorted (row_le g) (insert_by_row g c l).
Proof.
  induction 1 as [|x l Hs IH Hall]; simpl; [by repeat constructor|].
  case_decide as Hle.
  - constructor; [by constructor|]. constructor; [done|].
    eapply Forall_impl; [done|]. unfold row_le in *. intros y ?. lia.
  - constructor; [done|]. rewrite insert_by_row_perm. constructor; [|done].
    unfold row_le. lia.
Qed.

Lemma sort_by_row_sorted g l : StronglySorted (row_le g) (sort_by_row g l).
Proof.
  unfold sort_by_row. induction l as [|x l IH]; simpl; [constructor|].
  by apply insert_by_row_sorted.
Qed.

Lemma sorted_filter {A} (R : A → A → Prop) (P : A → Prop) `{∀ x, Decision (P x)} l :
  StronglySorted R l → StronglySorted R (filter P l).
Proof.
  induction 1 as [|x l Hs IH Hall]; [constructor|].
  rewrite filter_cons. case_decide; [|done].
  constructor; [done|]. apply Forall_forall. intros y [_ Hy]%list_elem_of_filter.
  rewrite Forall_forall in Hall. by apply Hall.
Qed.

(** The head of a sorted list is least. *)
Lemma sorted_head g x l y :
  StronglySorted (row_le g) (x :: l) → y ∈ x :: l → row_num g x ≤ row_num g y.
Proof.
  intros [_ Hall]%StronglySorted_inv [->|Hy]%elem_of_cons; [done|].
  rewrite Forall_forall in Hall. by apply Hall.
Qed.

Lemma move_two_eq g c :
  rank c = "2" →
  move c g =
  match blanksFirstColumn g with
  | [] => Returned g
  | first :: _ =>
      if decide (column_of g c ≠ Some 0) then _swap g c first
      else match filter (λ b, row_num g c < row_num g b) (blanksFirstColumn g) with
           | after :: _ => _swap g c after
           | [] => _swap g c first
           end
  end.
Proof. intros Hrank. unfold move. by rewrite decide_True. Qed.

Lemma row_num_pos g c r k : position g !! c = Some (r, k) → row_num g c = r.
Proof. intros H. unfold row_num, row_of. by rewrite H. Qed.

Section move_facts.
Context (g : Game) (HI : Inv g).

(** A swap of a card with a blank, both on the board. *)
Lemma swap_with_blank c b pc pd :
  isBlank c = false → isBlank b = true →
  position g !! c = Some pc → position g !! b = Some pd →
  ∃ g', _swap g c b = Returned g' ∧
        position g' = <[b := pc]> (<[c := pd]> (position g)) ∧
        position g' !! c = Some pd ∧ position g' !! b = Some pc ∧ pc ≠ pd ∧
        stock g' = stock g ∧ deals g' = deals g ∧
        length <$> rows g' = length <$> rows g.
Proof.
  intros Hc Hb Hpc Hpd. assert (c ≠ b) as Hne by (intros ->; congruence).
  destruct (swap_inv g HI c b pc pd Hpc Hpd Hne) as (g' & ? & Hpos & ? & ? & ? & _).
  exists g'. split_and!; try done.
  - by rewrite Hpos, lookup_insert_ne, lookup_insert_eq.
  - by rewrite Hpos, lookup_insert_eq.
  - intros ->. destruct Hne. by eapply (inv_pos_inj g HI).
Qed.

(** The case of [move] that a movable card takes. *)
Lemma move_movable c :
  movable_spec g c →
  ∃ b pc pd, b ∈ Deck.getBlanks ∧ isBlank c = false ∧ c ∈ Deck.CARDS ∧
    position g !! c = Some pc ∧ position g !! b = Some pd ∧
    move c g = _swap g c b ∧
    ((rank c = "2" ∧ pd.2 = 0) ∨
     (rank c ≠ "2" ∧
      ∃ p r k, prevRank c = Some p ∧ position g !! p = Some (r, k) ∧
               pd = (r, S k) ∧ isBlank p = false ∧ p ≠ c)).
Proof.
  intros (b0 & r0 & k0 & Hb0 & Hpos0 & Hkind).
  pose proof Hb0 as [Hb0d Hb0b]%elem_of_getBlanks.
  destruct Hkind as [(-> & Hc & Hrank)|(Hk & l & Hl & Hnb & HnK & Hsucc)].
  - pose proof (two_not_blank c Hc Hrank) as Hcb.
    destruct (blank_on_board_full g HI b0 _ c Hb0b Hpos0 Hc) as [pc Hpc].
    rewrite (move_two_eq g c Hrank).
    assert (b0 ∈ blanksFirstColumn g) as Hin0.
    { apply elem_of_blanksFirstColumn. eauto. }
    destruct (blanksFirstColumn g) as [|first tl] eqn:Hlist.
    { by apply elem_of_nil in Hin0. }
    assert (∀ b, b ∈ first :: tl →
      ∃ b' pc pd, b' ∈ Deck.getBlanks ∧ isBlank c = false ∧ c ∈ Deck.CARDS ∧
        position g !! c = Some pc ∧ position g !! b' = Some pd ∧
        _swap g c b = _swap g c b' ∧
        ((rank c = "2" ∧ pd.2 = 0) ∨
         (rank c ≠ "2" ∧
          ∃ p r k, prevRank c = Some p ∧ position g !! p = Some (r, k) ∧
                   pd = (r, S k) ∧ isBlank p = false ∧ p ≠ c))) as Hswap.
    { intros b Hb. rewrite <- Hlist in Hb.
      apply elem_of_blanksFirstColumn in Hb as [Hb [r Hr]].
      exists b, pc, (r, 0). split_and!; try done. by left. }
    case_decide.
    + apply Hswap. left.
    + destruct (filter _ (first :: tl)) as [|after tl'] eqn:Hafter.
      * apply Hswap. left.
      * apply Hswap.
        assert (after ∈ filter (λ b, row_num g c < row_num g b) (first :: tl)) as Hin.
        { rewrite Hafter. left. }
        by apply list_elem_of_filter in Hin as [_ ?].
  - destruct k0 as [|k]; [done|]. rewrite Nat.sub_1_r in Hl. simpl in Hl.
    assert (l ∈ Deck.CARDS) as Hld.
    { apply (inv_deck g HI), elem_of_app. right. apply elem_of_grid. eauto. }
    pose proof (is_successor_nextRank l c Hld Hsucc) as Hn.
    pose proof (nextRank_Some l c Hn) as (Hc & Hcb & _ & _ & Hidx & _ & _ & Hp & Hrank & _).
    destruct (blank_on_board_full g HI b0 _ c Hb0b Hpos0 Hc) as [pc Hpc].
    apply (inv_pos g HI) in Hl as Hlpos.
    destruct (inv_pos_row g HI b0 r0 (S k) Hpos0) as (row & Hr & Hbk & Hlt).
    exists b0, pc, (r0, S k).
    split_and!; try done.
    + unfold move. rewrite decide_False by done. rewrite Hp, Hlpos, Hr.
      destruct (Z.ltb_spec (Z.of_nat k) (Z.of_nat (length row) - 1)); [|lia].
      rewrite slot_get_succ, Hbk. simpl. by rewrite Hb0b.
    + right. split; [done|].
      exists l, r0, k. split_and!; try done. intros ->. lia.
Qed.

(** The case of [move] that swaps makes the card movable. *)
Lemma swap_case_movable c dest pc pd :
  c ∈ Deck.CARDS → isBlank dest = true →
  position g !! c = Some pc → position g !! dest = Some pd →
  (rank c = "2" ∧ pd.2 = 0) ∨
  (rank c ≠ "2" ∧ ∃ p r k, prevRank c = Some p ∧ position g !! p = Some (r, k) ∧ pd = (r, S k)) →
  movable_spec g c.
Proof.
  intros Hc Hb Hpc Hpd Hkind.
  assert (dest ∈ Deck.getBlanks) as Hd.
  { apply elem_of_getBlanks. split; [|done]. by eapply (inv_pos_deck g HI). }
  destruct pd as [r k]. exists dest, r, k. split_and!; [done..|].
  destruct Hkind as [[Hrank Hk]|(Hrank & p & r' & k' & Hp & Hpp & [= -> ->])].
  - left. simpl in Hk. by subst k.
  - right. split; [done|]. exists p. rewrite Nat.sub_1_r. simpl.
    apply prevRank_Some in Hp as (_ & Hpb & _ & Hn & _).
    apply nextRank_Some in Hn as Hfacts.
    destruct Hfacts as (_ & _ & _ & _ & _ & _ & _ & _ & _ & HnK).
    split_and!; try done; [by apply (inv_pos g HI)|by apply nextRank_is_successor].
Qed.

End move_facts.

(** X18 — what [getMovableCards] returns on a reachable board are cards of
    the deck that lie on the board and are no blanks; [null] is never in
    the set. *)
Theorem movable_cards_on_board g M x :
  reachable g → getMovableCards g = Ok M → x ∈ M →
  ∃ c, x = Some c ∧ c ∈ Deck.CARDS ∧ isBlank c = false ∧ is_Some (position g !! c).
Proof.
  intros HI%reachable_Inv HM Hx.
  rewrite (getMovableCards_inv g HI) in HM. injection HM as <-.
  apply (elem_of_movable g x HI) in Hx as (c & -> & Hspec).
  destruct (move_movable g HI c Hspec) as (b & pc & pd & _ & ? & ? & ? & _).
  exists c. by split_and!.
Qed.

Lemma movable_cards_on_board_witness :
  ∃ c, Some four_of_diamonds = Some c ∧ c ∈ Deck.CARDS ∧ isBlank c = false ∧
       is_Some (position sample_board !! c).
Proof.
  apply (movable_cards_on_board sample_board sample_movable (Some four_of_diamonds)).
  - apply reach_deal, reach_initial.
  - by_compute.
  - by_compute.
Defined.

Lemma move_of_movable g c :
  Inv g → movable_spec g c →
  ∃ g' b pc pd,
    move c g = Returned g' ∧ b ∈ Deck.getBlanks ∧
    position g !! c = Some pc ∧ position g !! b = Some pd ∧
    position g' !! c = Some pd ∧ position g' !! b = Some pc ∧ pc ≠ pd ∧
    ((rank c = "2" ∧ pd.2 = 0) ∨
     (rank c ≠ "2" ∧
      ∃ p r k, prevRank c = Some p ∧ position g' !! p = Some (r, k) ∧ pd = (r, S k))).
Proof.
  intros HI Hspec.
  destruct (move_movable g HI c Hspec)
    as (b & pc & pd & Hb & Hcb & Hcd & Hpc & Hpd & -> & Hkind).
  pose proof Hb as [_ Hbb]%elem_of_getBlanks.
  destruct (swap_with_blank g HI c b pc pd Hcb Hbb Hpc Hpd)
    as (g' & Hswap & Hpos & Hc' & Hb' & Hne & _).
  exists g', b, pc, pd. split_and!; try done.
  destruct Hkind as [?|(Hrank & p & r & k & Hp & Hpp & -> & Hpb & Hpne)]; [by left|].
  right. split; [done|]. exists p, r, k. split_and!; try done.
  rewrite Hpos, !lookup_insert_ne; [done|congruence|]. intros ->. congruence.
Qed.

(** X19 — a movable card can be moved: on a reachable board, [move] of a
    card of [getMovableCards] returns without exception and exchanges the
    card with a blank; a 2 lands in column 0, any other card immediately to
    the right of its predecessor. *)
Theorem movable_card_moves g M c :
  reachable g → getMovableCards g = Ok M → Some c ∈ M →
  ∃ g' b pc pd,
    move c g = Returned g' ∧ b ∈ Deck.getBlanks ∧
    position g !! c = Some pc ∧ position g !! b = Some pd ∧
    position g' !! c = Some pd ∧ position g' !! b = Some pc ∧ pc ≠ pd ∧
    ((rank c = "2" ∧ pd.2 = 0) ∨
     (rank c ≠ "2" ∧
      ∃ p r k, prevRank c = Some p ∧ position g' !! p = Some (r, k) ∧ pd = (r, S k))).
Proof.
  intros HI%reachable_Inv HM Hc.
  rewrite (getMovableCards_inv g HI) in HM. injection HM as <-.
  apply (elem_of_movable g _ HI) in Hc as (c' & [= <-] & Hspec).
  by apply move_of_movable.
Qed.

Lemma movable_card_moves_witness :
  ∃ g' b pc pd,
    move four_of_diamonds sample_board = Returned g' ∧ b ∈ Deck.getBlanks ∧
    position sample_board !! four_of_diamonds = Some pc ∧
    position sample_board !! b = Some pd ∧
    position g' !! four_of_diamonds = Some pd ∧ position g' !! b = Some pc ∧ pc ≠ pd ∧
    ((rank four_of_diamonds = "2" ∧ pd.2 = 0) ∨
     (rank four_of_diamonds ≠ "2" ∧
      ∃ p r k, prevRank four_of_diamonds = Some p ∧
               position g' !! p = Some (r, k) ∧ pd = (r, S k))).
Proof.
  apply (movable_card_moves sample_board sample_movable four_of_diamonds).
  - apply reach_deal, reach_initial.
  - by_compute.
  - by_compute.
Defined.

(** X20 — [move] changes the board exactly for the movable cards: on a
    reachable board the state after [move(c)] differs from the state before
    if and only if [c] is in [getMovableCards]. *)
Theorem move_changes_iff_movable g M c :
  reachable g → c ∈ Deck.CARDS → getMovableCards g = Ok M →
  state_of (move c g) ≠ g ↔ Some c ∈ M.
Proof.
  intros Hreach Hc HM. pose proof (reachable_Inv g Hreach) as HI.
  pose proof HM as HM'.
  rewrite (getMovableCards_inv g HI) in HM'. injection HM' as <-. split.
  - intros Hchg.
    destruct (move_effect_inv g HI c Hc) as [| |dest pc pd Hb Hcb Hpc Hpd Hkind];
      [done..|].
    apply (elem_of_movable g _ HI). exists c. split; [done|].
    by eapply swap_case_movable.
  - intros (c' & [= <-] & Hspec)%(elem_of_movable g _ HI).
    destruct (move_of_movable g c HI Hspec)
      as (g' & b & pc & pd & -> & _ & Hpc & _ & Hpd & _ & Hne & _).
    simpl. intros ->. congruence.
Qed.

Lemma move_changes_iff_movable_witness :
  state_of (move four_of_diamonds sample_board) ≠ sample_board
  ↔ Some four_of_diamonds ∈ sample_movable.
Proof.
  apply (move_changes_iff_movable sample_board sample_movable four_of_diamonds).
  - apply reach_deal, reach_initial.
  - by_compute.
  - by_compute.
Defined.

(** X21 — [move] touches nothing but two positions: on a reachable board it
    leaves the stock, the deal counter and the length of every row as they
    are, and no card other than the moved card and a blank changes its
    position. *)
Theorem move_frame g c :
  reachable g → c ∈ Deck.CARDS →
  stock (state_of (move c g)) = stock g ∧
  deals (state_of (move c g)) = deals g ∧
  length <$> rows (state_of (move c g)) = length <$> rows g ∧
  ∀ x, x ≠ c → isBlank x = false →
       position (state_of (move c g)) !! x = position g !! x.
Proof.
  intros HI%reachable_Inv Hc.
  destruct (move_effect_inv g HI c Hc) as [| |dest pc pd Hb Hcb Hpc Hpd _];
    [done..|].
  destruct (swap_with_blank g HI c dest pc pd Hcb Hb Hpc Hpd)
    as (g' & -> & Hpos & _ & _ & _ & ? & ? & ?).
  simpl. split_and!; try done.
  intros x Hxc Hxb. rewrite Hpos, !lookup_insert_ne; [done|congruence|].
  intros ->. congruence.
Qed.

Lemma move_frame_witness :
  stock (state_of (move four_of_diamonds sample_board)) = stock sample_board ∧
  deals (state_of (move four_of_diamonds sample_board)) = deals sample_board ∧
  length <$> rows (state_of (move four_of_diamonds sample_board))
  = length <$> rows sample_board ∧
  ∀ x, x ≠ four_of_diamonds → isBlank x = false →
       position (state_of (move four_of_diamonds sample_board)) !! x
       = position sample_board !! x.
Proof.
  apply (move_frame sample_board four_of_diamonds);
    [apply reach_deal, reach_initial|by_compute].
Defined.

Lemma move_inert g c :
  Inv g → c ∈ Deck.CARDS → (∀ b, b ∈ Deck.getBlanks → position g !! b = None) →
  state_of (move c g) = g.
Proof.
  intros HI Hc Hnb.
  destruct (move_effect_inv g HI c Hc) as [| |dest pc pd Hb Hcb Hpc Hpd _];
    [done..|].
  rewrite Hnb in Hpd; [done|]. apply elem_of_getBlanks. split; [|done].
  by eapply (inv_pos_deck g HI).
Qed.

(** X22 — without a blank on the board no move does anything: on a
    reachable board where every blank is in the stock (a new game, or after
    [clearUnfinished]) the board after [move] is the board before. *)
Theorem move_without_blanks g c :
  reachable g → c ∈ Deck.CARDS →
  (∀ b, b ∈ Deck.getBlanks → position g !! b = None) →
  state_of (move c g) = g.
Proof. intros HI%reachable_Inv. by apply move_inert. Qed.

Lemma move_without_blanks_witness : state_of (move two_of_clubs initial) = initial.
Proof.
  apply (move_without_blanks initial two_of_clubs).
  - apply reach_initial.
  - by_compute.
  - intros b _. apply lookup_empty.
Defined.

(** X23 — a 2 that is not in column 0 goes to the topmost blank of
    column 0: on a reachable board with a blank in column 0, [move] of such
    a 2 returns, and the 2 takes the place of a blank of column 0 whose row
    is not below the row of any other blank of column 0. *)
Theorem move_two_to_topmost_blank g c b0 r0 :
  reachable g → c ∈ Deck.CARDS → rank c = "2" → column_of g c ≠ Some 0 →
  b0 ∈ Deck.getBlanks → position g !! b0 = Some (r0, 0) →
  ∃ g' b r, move c g = Returned g' ∧ b ∈ Deck.getBlanks ∧
            position g !! b = Some (r, 0) ∧ r ≤ r0 ∧
            position g' !! c = Some (r, 0) ∧ position g' !! b = position g !! c.
Proof.
  intros HI%reachable_Inv Hc Hrank Hcol Hb0 Hpos0.
  pose proof Hb0 as [_ Hb0b]%elem_of_getBlanks.
  destruct (blank_on_board_full g HI b0 _ c Hb0b Hpos0 Hc) as [pc Hpc].
  rewrite (move_two_eq g c Hrank).
  assert (b0 ∈ blanksFirstColumn g) as Hin0 by (apply elem_of_blanksFirstColumn; eauto).
  pose proof (sort_by_row_sorted g
    (filter (λ c, column_of g c = Some 0) Deck.getBlanks)) as Hsorted.
  fold (blanksFirstColumn g) in Hsorted.
  destruct (blanksFirstColumn g) as [|first tl] eqn:Hlist.
  { by apply elem_of_nil in Hin0. }
  rewrite decide_True by done.
  assert (first ∈ blanksFirstColumn g) as Hfirst by (rewrite Hlist; left).
  apply elem_of_blanksFirstColumn in Hfirst as [Hfb [r Hr]].
  pose proof Hfb as [_ Hfbb]%elem_of_getBlanks.
  pose proof (sorted_head g first tl b0 Hsorted Hin0) as Hle.
  rewrite (row_num_pos g first r 0 Hr), (row_num_pos g b0 r0 0 Hpos0) in Hle.
  destruct (swap_with_blank g HI c first pc (r, 0) (two_not_blank c Hc Hrank) Hfbb Hpc Hr)
    as (g' & -> & _ & Hc' & Hb' & _).
  exists g', first, r. split_and!; try done. by rewrite Hb', Hpc.
Qed.

Lemma move_two_to_topmost_blank_witness :
  ∃ g' b r, move two_of_diamonds sample_board = Returned g' ∧ b ∈ Deck.getBlanks ∧
            position sample_board !! b = Some (r, 0) ∧ r ≤ 1 ∧
            position g' !! two_of_diamonds = Some (r, 0) ∧
            position g' !! b = position sample_board !! two_of_diamonds.
Proof.
  apply (move_two_to_topmost_blank sample_board two_of_diamonds first_blank 1).
  - apply reach_deal, reach_initial.
  - by_compute.
  - by_compute.
  - by_compute.
  - by_compute.
  - by_compute.
Defined.

(** X24 — a 2 in column 0 goes down to the next blank of column 0 and
    wraps around: on a reachable board, [move] of a 2 of column 0 exchanges
    it with a blank of column 0; when column 0 has a blank below the 2 it is
    the nearest one below, otherwise it is the topmost blank of column 0. *)
Theorem move_two_down_or_wrap g c rc b0 r0 :
  reachable g → c ∈ Deck.CARDS → rank c = "2" → position g !! c = Some (rc, 0) →
  b0 ∈ Deck.getBlanks → position g !! b0 = Some (r0, 0) →
  ∃ g' b r, move c g = Returned g' ∧ b ∈ Deck.getBlanks ∧
            position g !! b = Some (r, 0) ∧
            position g' !! c = Some (r, 0) ∧ position g' !! b = Some (rc, 0) ∧
            ((rc < r ∧ (rc < r0 → r ≤ r0)) ∨ (r < rc ∧ r0 < rc ∧ r ≤ r0)).
Proof.
  intros HI%reachable_Inv Hc Hrank Hpc Hb0 Hpos0.
  pose proof Hb0 as [_ Hb0b]%elem_of_getBlanks.
  pose proof (two_not_blank c Hc Hrank) as Hcb.
  rewrite (move_two_eq g c Hrank).
  assert (b0 ∈ blanksFirstColumn g) as Hin0 by (apply elem_of_blanksFirstColumn; eauto).
  pose proof (sort_by_row_sorted g
    (filter (λ c, column_of g c = Some 0) Deck.getBlanks)) as Hsorted.
  fold (blanksFirstColumn g) in Hsorted.
  assert (∀ b r, b ∈ Deck.getBlanks → position g !! b = Some (r, 0) → r ≠ rc) as Hother.
  { intros b r [_ Hbb]%elem_of_getBlanks Hr ->.
    pose proof (inv_pos_inj g HI c b _ Hpc Hr). congruence. }
  destruct (blanksFirstColumn g) as [|first tl] eqn:Hlist.
  { by apply elem_of_nil in Hin0. }
  rewrite decide_False by (unfold column_of; rewrite Hpc; simpl; tauto).
  rewrite (row_num_pos g c rc 0 Hpc).
  pose proof (sorted_filter (row_le g) (λ b, rc < row_num g b) _ Hsorted) as Hfsorted.
  destruct (filter _ (first :: tl)) as [|after tl'] eqn:Hafter.
  - assert (first ∈ blanksFirstColumn g) as Hfirst by (rewrite Hlist; left).
    apply elem_of_blanksFirstColumn in Hfirst as [Hfb [r Hr]].
    pose proof Hfb as [_ Hfbb]%elem_of_getBlanks.
    pose proof (sorted_head g first tl b0 Hsorted Hin0) as Hle.
    rewrite (row_num_pos g first r 0 Hr), (row_num_pos g b0 r0 0 Hpos0) in Hle.
    assert (∀ b r', b ∈ first :: tl → position g !! b = Some (r', 0) → r' < rc) as Habove.
    { intros b r' Hb Hr'.
      pose proof (filter_nil_not_elem_of _ _ b Hafter) as Hnot.
      destruct (decide (rc < r')) as [Hlt|Hge].
      - destruct Hnot; [|done]. by rewrite (row_num_pos g b r' 0 Hr').
      - rewrite <- Hlist in Hb. apply elem_of_blanksFirstColumn in Hb as [Hb _].
        pose proof (Hother b r' Hb Hr'). lia. }
    destruct (swap_with_blank g HI c first (rc, 0) (r, 0) Hcb Hfbb Hpc Hr)
      as (g' & -> & _ & Hc' & Hb' & _).
    exists g', first, r. split_and!; try done. right.
    split_and!; [|by eapply Habove|done]. eapply Habove; [left|done].
  - assert (after ∈ filter (λ b, rc < row_num g b) (first :: tl)) as Hin.
    { rewrite Hafter. left. }
    apply list_elem_of_filter in Hin as [Hlt Hin]. rewrite <- Hlist in Hin.
    apply elem_of_blanksFirstColumn in Hin as [Hab [r Hr]].
    pose proof Hab as [_ Habb]%elem_of_getBlanks.
    rewrite (row_num_pos g after r 0 Hr) in Hlt.
    destruct (swap_with_blank g HI c after (rc, 0) (r, 0) Hcb Habb Hpc Hr)
      as (g' & -> & _ & Hc' & Hb' & _).
    exists g', after, r. split_and!; try done. left. split; [done|].
    intros Hlt0.
    assert (b0 ∈ after :: tl') as Hb0in.
    { rewrite <- Hafter. apply list_elem_of_filter. split; [|done].
      by rewrite (row_num_pos g b0 r0 0 Hpos0). }
    pose proof (sorted_head g after tl' b0 Hfsorted Hb0in) as Hle.
    by rewrite (row_num_pos g after r 0 Hr), (row_num_pos g b0 r0 0 Hpos0) in Hle.
Qed.

Lemma move_two_down_or_wrap_witness :
  ∃ g' b r, move two_of_clubs sample_board = Returned g' ∧ b ∈ Deck.getBlanks ∧
            position sample_board !! b = Some (r, 0) ∧
            position g' !! two_of_clubs = Some (r, 0) ∧
            position g' !! b = Some (0, 0) ∧
            ((0 < r ∧ (0 < 1 → r ≤ 1)) ∨ (r < 0 ∧ 1 < 0 ∧ r ≤ 1)).
Proof.
  apply (move_two_down_or_wrap sample_board two_of_clubs 0 first_blank 1).
  - apply reach_deal, reach_initial.
  - by_compute.
  - by_compute.
  - by_compute.
  - by_compute.
  - by_compute.
Defined.

(** ** The New Game button *)

Lemma cell_empty_rows r k : cell [[]; []; []; []] r k = None.
Proof. by destruct r as [|[|[|[|r]]]]. Qed.

Lemma cardToLeft_row h b r k row :
  position h !! b = Some (r, S k) → rows h !! r = Some row →
  cardToLeft h b = Ok (cell (rows h) r k).
Proof.
  intros Hb Hr. unfold cardToLeft, neighbour.
  rewrite Hb, Hr, slot_get_pred. unfold cell. by rewrite Hr.
Qed.

Lemma movable_fold_rows h bs M :
  (∀ b r k, b ∈ bs → position h !! b = Some (r, k) → is_Some (rows h !! r)) →
  foldl (movable_step h) (Ok M) bs = Ok (M ∪ ⋃ (nominated h <$> bs)).
Proof.
  revert M. induction bs as [|b bs IH]; intros M Hrows; cbn [foldl].
  - simpl. by rewrite (right_id_L ∅ (∪)).
  - assert (movable_step h (Ok M) b = Ok (M ∪ nominated h b)) as ->.
    { unfold movable_step, nominated, rbind.
      destruct (position h !! b) as [[r [|k]]|] eqn:Hb.
      - done.
      - destruct (Hrows b r (S k)) as [row Hr]; [left|done|].
        rewrite (cardToLeft_row h b r k row Hb Hr).
        destruct (cell (rows h) r k) as [l|]; [|by rewrite (right_id_L ∅ (∪))].
        destruct (negb (isBlank l) && negb (bool_decide (rank l = "K"))); [done|].
        by rewrite (right_id_L ∅ (∪)).
      - by rewrite (right_id_L ∅ (∪)). }
    rewrite IH, fmap_cons.
    + simpl. by rewrite (assoc_L (∪)).
    + intros b' r k Hb'. apply Hrows. by right.
Qed.

Section new_game.
Context (g : Game) (HI : Inv g).

Lemma getMovableCards_fresh :
  getMovableCards (freshGame g) = Ok (⋃ (nominated (freshGame g) <$> Deck.getBlanks)).
Proof.
  unfold getMovableCards. rewrite movable_fold_rows.
  - by rewrite (left_id_L ∅ (∪)).
  - intros b r k _ Hb. simpl in Hb.
    destruct (inv_pos_row g HI b r k Hb) as (row & Hr & _).
    apply lookup_lt_Some in Hr. rewrite (inv_rows g HI) in Hr.
    apply lookup_lt_is_Some_2. simpl. lia.
Qed.

Lemma nominated_fresh b :
  nominated (freshGame g) b =
  match position g !! b with
  | Some (_, 0) => list_to_set (Some <$> Deck.getCardsByRank "2")
  | _ => ∅
  end.
Proof.
  unfold nominated. cbn [position rows freshGame].
  destruct (position g !! b) as [[r [|k]]|]; [done| |done].
  by rewrite cell_empty_rows.
Qed.


End new_game.

Lemma size_pos_elem `{Countable A} (X : gset A) x : x ∈ X → 0 < size X.
Proof.
  intros Hx. destruct (decide (size X = 0)) as [Hz|]; [|lia].
  apply size_empty_iff in Hz. by apply Hz in Hx.
Qed.

(** X25 — New Game does not deal while a blank heads a row: when some
    blank of a reachable board is in column 0, [new Game().deal()] is
    blocked and returns the new, empty board: four empty rows, the 52
    cards in the stock, deal counter 0, the old positions on the cards. *)
Theorem newGame_blocked rnd g b r :
  reachable g → b ∈ Deck.getBlanks → position g !! b = Some (r, 0) →
  newGame rnd g = Returned (freshGame g) ∧
  rows (freshGame g) = [[]; []; []; []] ∧ stock (freshGame g) = Deck.all ∧
  position (freshGame g) = position g.
Proof.
  intros HI%reachable_Inv Hb Hpos. split; [|done].
  unfold newGame. apply (deal_blocked rnd _ _ (getMovableCards_fresh g HI)).
  apply (size_pos_elem _ (Some two_of_clubs)).
  apply elem_of_union_list. exists (nominated (freshGame g) b).
  split; [by apply list_elem_of_fmap_2|].
  rewrite (nominated_fresh g), Hpos.
  apply elem_of_list_to_set, list_elem_of_fmap_2, elem_of_getCardsByRank.
  split; [by_compute|done].
Qed.

Lemma newGame_blocked_witness :
  newGame sample_choices sample_board = Returned (freshGame sample_board) ∧
  rows (freshGame sample_board) = [[]; []; []; []] ∧
  stock (freshGame sample_board) = Deck.all ∧
  position (freshGame sample_board) = position sample_board.
Proof.
  apply (newGame_blocked sample_choices sample_board first_blank 1).
  - apply reach_deal, reach_initial.
  - by_compute.
  - by_compute.
Defined.



(** ** Composition of swaps, and the two phases of a game *)

(** Two grids with the same row lengths and the same cards in every cell,
    and without holes, are the same grid. *)
Lemma rows_ext (rs1 rs2 : list (list slot)) :
  length <$> rs1 = length <$> rs2 →
  (∀ r k, cell rs1 r k = cell rs2 r k) →
  (∀ r row k, rs1 !! r = Some row → k < length row → is_Some (cell rs1 r k)) →
  (∀ r row k, rs2 !! r = Some row → k < length row → is_Some (cell rs2 r k)) →
  rs1 = rs2.
Proof.
  intros Hlen Hcell Hd1 Hd2. apply list_eq. intros r.
  destruct (rs1 !! r) as [row1|] eqn:H1.
  - destruct (lookup_lengths rs2 rs1 r row1 Hlen H1) as (row2 & H2 & Hl).
    rewrite H2. f_equal. apply list_eq. intros k.
    destruct (decide (k < length row1)) as [Hk|Hk].
    + destruct (Hd1 r row1 k H1 Hk) as [c1 Hc1].
      pose proof Hc1 as Hc2. rewrite Hcell in Hc2.
      apply cell_Some in Hc1 as (? & ? & ?), Hc2 as (? & ? & ?). congruence.
    + rewrite !lookup_ge_None_2; [done|lia..].
  - symmetry. apply lookup_ge_None. apply lookup_ge_None in H1.
    rewrite <- (length_fmap length rs2), <- Hlen, length_fmap. done.
Qed.

Lemma inv_cell_defined g r row k :
  Inv g → rows g !! r = Some row → k < length row → is_Some (cell (rows g) r k).
Proof.
  intros HI Hr Hk. destruct (inv_row_defined g HI r row k Hr Hk) as [c Hc].
  exists c. apply cell_Some. eauto.
Qed.

(** X27 — [_swap] undoes itself: on a reachable board, exchanging two
    different cards of the board and exchanging them again gives back the
    board, with every row, position, the stock and the counter as before. *)
Theorem swap_twice g c d pc pd :
  reachable g → position g !! c = Some pc → position g !! d = Some pd → c ≠ d →
  ∃ g1, _swap g c d = Returned g1 ∧ _swap g1 c d = Returned g.
Proof.
  intros HI%reachable_Inv Hpc Hpd Hne.
  destruct (swap_inv g HI c d pc pd Hpc Hpd Hne)
    as (g1 & Hswap & Hpos1 & Hs1 & Hd1 & Hl1 & Hcell1).
  pose proof (swap_Inv g HI c d pc pd Hpc Hpd Hne g1 Hswap) as HI1.
  assert (position g1 !! c = Some pd) as Hpc1.
  { by rewrite Hpos1, lookup_insert_ne, lookup_insert_eq. }
  assert (position g1 !! d = Some pc) as Hpd1 by by rewrite Hpos1, lookup_insert_eq.
  destruct (swap_inv g1 HI1 c d pd pc Hpc1 Hpd1 Hne)
    as (g2 & Hswap2 & Hpos2 & Hs2 & Hd2 & Hl2 & Hcell2).
  pose proof (swap_Inv g1 HI1 c d pd pc Hpc1 Hpd1 Hne g2 Hswap2) as HI2.
  exists g1. split; [done|]. rewrite Hswap2. f_equal.
  assert (position g2 = position g) as Hpos.
  { apply map_eq. intros x. rewrite Hpos2, Hpos1.
    destruct (decide (x = d)) as [->|Hxd]; [by rewrite lookup_insert_eq|].
    rewrite lookup_insert_ne by done.
    destruct (decide (x = c)) as [->|Hxc]; [by rewrite lookup_insert_eq|].
    by rewrite !lookup_insert_ne. }
  assert (rows g2 = rows g) as Hrows.
  { apply rows_ext.
    - by rewrite Hl2, Hl1.
    - intros r k. rewrite Hcell2, Hcell1.
      destruct (decide ((r, k) = pd)) as [<-|H1].
      + symmetry. by apply (inv_pos g HI).
      + destruct (decide ((r, k) = pc)) as [<-|H2]; [|done].
        symmetry. by apply (inv_pos g HI).
    - intros r row k. by apply inv_cell_defined.
    - intros r row k. by apply inv_cell_defined. }
  destruct g, g2; simpl in *; congruence.
Qed.

Lemma swap_twice_witness :
  ∃ g1, _swap sample_board two_of_clubs first_blank = Returned g1 ∧
        _swap g1 two_of_clubs first_blank = Returned sample_board.
Proof.
  apply (swap_twice sample_board two_of_clubs first_blank (0, 0) (1, 0)).
  - apply reach_deal, reach_initial.
  - by_compute.
  - by_compute.
  - by_compute.
Defined.

Lemma full_board_blanks g b :
  Inv g → stock g = [] → b ∈ Deck.getBlanks → is_Some (position g !! b).
Proof.
  intros HI Hs [Hb _]%elem_of_getBlanks.
  destruct (inv_cover g HI b Hb) as [Hin|?]; [|done].
  rewrite Hs in Hin. by apply elem_of_nil in Hin.
Qed.

(** X28 — a reachable board is in one of two phases.  Either it is fully
    dealt: the stock is empty, every row has 13 cards and the four blanks
    are on the board; or it awaits a deal: the four blanks are in the stock
    and every card on the board is finalized. *)
Theorem board_phase g :
  reachable g →
  (stock g = [] ∧ (∀ r row, rows g !! r = Some row → length row = 13) ∧
   ∀ b, b ∈ Deck.getBlanks → is_Some (position g !! b))
  ∨ ((∀ b, b ∈ Deck.getBlanks → position g !! b = None) ∧
     ∃ F, getFinalizedCards g = Ok F ∧ ∀ c, is_Some (position g !! c) → c ∈ F).
Proof.
  induction 1 as [|rnd g Hreach IH|c g Hc Hreach IH|g Hreach IH].
  - right. split; [intros b _; apply lookup_empty|].
    exists ∅. split; [by_compute|]. intros c [p Hp].
    unfold initial in Hp. cbn [position] in Hp. by rewrite lookup_empty in Hp.
  - pose proof (reachable_Inv g Hreach) as HI.
    pose proof (getMovableCards_inv g HI) as HM.
    destruct (decide (0 < size (⋃ (nominated g <$> Deck.getBlanks)))) as [Hpos|Hz].
    { by rewrite (deal_blocked rnd g _ HM Hpos). }
    destruct (deal_unblocked rnd g _ HI HM) as (g' & -> & HI' & Hs & Hfull & _); [lia|].
    left. simpl. split_and!; [done..|]. intros b. by apply full_board_blanks.
  - pose proof (reachable_Inv g Hreach) as HI.
    destruct IH as [(Hs & Hfull & Hblanks)|[Hnb HF]].
    + left. pose proof (move_Inv g HI c Hc) as HI'.
      destruct (move_effect_inv g HI c Hc) as [| |dest pc pd Hb Hcb Hpc Hpd _];
        [by split_and!..|].
      destruct (swap_with_blank g HI c dest pc pd Hcb Hb Hpc Hpd)
        as (g' & Hswap & _ & _ & _ & _ & Hs' & _ & Hlen).
      rewrite Hswap in *. simpl in *.
      assert (stock g' = []) as Hs'' by congruence.
      split_and!; [done| |intros b; by apply full_board_blanks].
      intros r row' Hr. destruct (lookup_lengths _ _ _ _ Hlen Hr) as (row & Hr0 & <-).
      by apply (Hfull r).
    + rewrite (move_inert g c HI Hc Hnb). by right.
  - pose proof (reachable_Inv g Hreach) as HI.
    destruct (clearUnfinished_inv g HI) as (g1 & -> & _ & Hr1 & _ & _ & HI1 & Hnb).
    right. simpl. split.
    + intros b [_ Hb]%elem_of_getBlanks. by apply Hnb.
    + exists (finalized_of (rows g1)). split; [apply (getFinalizedCards_inv g1 HI1)|].
      intros c [[r k] Hp].
      destruct (inv_pos_row g1 HI1 c r k Hp) as (row & Hr & Hk & _).
      apply (finalized_in_row g1 HI1 r row k c Hr Hk).
      rewrite Hr1 in Hr. unfold cleared_rows in Hr.
      apply list_lookup_fmap_Some in Hr as (row0 & -> & _).
      rewrite prefix_len_take. by apply lookup_take_Some in Hk as [_ ?].
Qed.

Lemma board_phase_witness :
  (stock sample_board = [] ∧
   (∀ r row, rows sample_board !! r = Some row → length row = 13) ∧
   ∀ b, b ∈ Deck.getBlanks → is_Some (position sample_board !! b))
  ∨ ((∀ b, b ∈ Deck.getBlanks → position sample_board !! b = None) ∧
     ∃ F, getFinalizedCards sample_board = Ok F ∧
          ∀ c, is_Some (position sample_board !! c) → c ∈ F).
Proof. apply (board_phase sample_board). apply reach_deal, reach_initial. Defined.

Lemma clearUnfinished_twice g :
  Inv g →
  ∃ g1, clearUnfinished g = Returned g1 ∧ clearUnfinished g1 = Returned g1 ∧
        Inv g1 ∧ no_blank_on_board g1.
Proof.
  intros HI.
  destruct (clearUnfinished_inv g HI) as (g1 & Hrun & Hs1 & Hr1 & _ & Hp1 & HI1 & Hnb).
  exists g1. split_and!; [done| |done..].
  destruct (clearUnfinished_inv g1 HI1) as (g2 & -> & Hs2 & Hr2 & Hd2 & Hp2 & _).
  f_equal.
  rewrite (cleared_rows_idem g g1 Hr1) in Hr2.
  rewrite (cleared_stock_idem g g1 Hr1) in Hs2, Hp2.
  assert (position g2 = position g1) as Hpos.
  { apply map_eq. intros c. rewrite Hp2. case_decide as Hin; [|done].
    rewrite Hp1, <- Hs1. by rewrite decide_True. }
  destruct g1, g2; simpl in *; congruence.
Qed.

(** X29 — Clear then Deal is Deal: on a reachable board without movable
    cards, [deal] after [clearUnfinished] returns, for the same random
    choices, the board that [deal] returns at once. *)
Theorem clear_then_deal rnd g :
  reachable g → getMovableCards g = Ok ∅ →
  ∃ g1, clearUnfinished g = Returned g1 ∧ deal rnd g1 = deal rnd g.
Proof.
  intros HI%reachable_Inv HM.
  destruct (clearUnfinished_twice g HI) as (g1 & Hc & Hc1 & HI1 & Hnb).
  exists g1. split; [done|]. unfold deal.
  rewrite HM, (getMovableCards_no_blank g1 HI1 Hnb).
  rewrite !decide_False by (rewrite size_empty; lia).
  by rewrite Hc, Hc1.
Qed.

Lemma clear_then_deal_witness :
  ∃ g1, clearUnfinished stuck_board = Returned g1 ∧
        deal sample_choices g1 = deal sample_choices stuck_board.
Proof.
  apply (clear_then_deal sample_choices stuck_board);
    [apply reach_deal, reach_initial|by_compute].
Defined.
